(** * PageRank: a shallow embedding of [pagerank.py] and its specification

    The three functions of the core, [transition_model], [sample_pagerank]
    and [iterate_pagerank], are embedded as executable Rocq functions.

    - A corpus (a Python [dict] from page names to [set]s of page names) is a
      [gmap string (gset string)]; a distribution is a [gmap string Qc].
    - Python floats are idealised as exact rationals ([Qc], canonical
      fractions with Leibniz equality): the numeric statements below are
      statements about exact arithmetic, unless they name [Binary64].
    - [transition_model] and [iterate_pagerank] are embedded a second time in
      the module [Binary64], over IEEE 754 binary64 numbers with their
      rounding, for the statements in which the rounding matters.
    - Python exceptions are the constructors of [exn]; a computation that may
      raise returns an [outcome].
    - The process-wide random generator is an explicit state of a type [G]
      with the [RandomSource] interface; [choice] and [choices] follow the
      code of CPython's [random] module.
    - A [for] loop over a dict or a set visits the keys in the order of
      [map_to_list]; no statement below depends on that order.  (The
      statements about [Binary64] are about corpora in which a page has at
      most two parents, and the sum of two floats is the same in both
      orders.)
    - The [while] loop of [iterate_pagerank] takes a pass budget (fuel) and
      answers [None] when the budget is exhausted.
    - [crawl] and [main] run against a [filesystem], a command line and the
      state of the generator; the regular expression of [crawl] is embedded
      as the scan that [re.findall] makes for it, and the rendering of a
      float with four decimals is a parameter of [main].

    The claims of the specification come first among the theorems; further
    properties of the code, numbered X1 and up, follow them. *)

From Stdlib Require Import QArith Qcanon Qcabs Lqa Lia Ascii.
From Stdlib Require Import Floats.SpecFloat.
From stdpp Require Import numbers strings fin_maps gmap list pretty sorting.

Local Open Scope string_scope.
Local Open Scope list_scope.
Local Open Scope Qc_scope.

(** ** Exceptions and the error monad *)

Inductive exn : Type :=
  | KeyError (k : string)
  | ZeroDivisionError
  | IndexError
  | ValueError.

Inductive outcome (A : Type) : Type :=
  | Ok (a : A)
  | Raise (e : exn).
Arguments Ok {A} a.
Arguments Raise {A} e.

#[global] Instance outcome_ret : MRet outcome := λ A a, Ok a.
#[global] Instance outcome_bind : MBind outcome := λ A B f m,
  match m with Ok a => f a | Raise e => Raise e end.

(** A [for] loop whose body may raise: the accumulator is threaded through
    the elements from left to right, and the first exception ends the loop. *)
Fixpoint foldM {A B : Type} (f : B → A → outcome B) (b : B) (l : list A)
    : outcome B :=
  match l with
  | [] => Ok b
  | x :: l' => b' ← f b x; foldM f b' l'
  end.

(** ** Python primitives *)

(** [m[k]] on a dict. *)
Definition getitem {V : Type} (m : gmap string V) (k : string) : outcome V :=
  match m !! k with
  | Some v => Ok v
  | None => Raise (KeyError k)
  end.

(** [list(m.keys())]. *)
Definition keys {V : Type} (m : gmap string V) : list string :=
  (map_to_list m).*1.

(** An [int] used in float arithmetic. *)
Definition of_nat (n : nat) : Qc := Qc_of_Z (Z.of_nat n).

(** True division [x / y]. *)
Definition truediv (x y : Qc) : outcome Qc :=
  if decide (y = 0) then Raise ZeroDivisionError else Ok (x / y).

(** The literal [0.001] of the convergence test. *)
Definition threshold : Qc := Q2Qc (1 # 1000).

(** [sum(l)]. *)
Definition sum_list (l : list Qc) : Qc := foldr Qcplus 0 l.

(** The sum of [f x] over the elements [x] of a list. *)
Definition sum_over {A : Type} (f : A → Qc) (l : list A) : Qc :=
  sum_list (f <$> l).

(** [sum(m.values())]. *)
Definition total (m : gmap string Qc) : Qc := sum_list (map_to_list m).*2.

(** ** [transition_model] (lines 53-75) *)

(** The body of the loop over [keys]. *)
Definition transition_step (pages : gset string) (ks : list string) (d : Qc)
    (probdis : gmap string Qc) (key : string) : outcome (gmap string Qc) :=
  linked_bonus ← (if decide (key ∈ pages)
                  then truediv d (of_nat (size pages)) else Ok 0);
  linked_bonus ← (if decide (size pages = 0%nat)
                  then truediv d (of_nat (length ks)) else Ok linked_bonus);
  base ← truediv (1 - d) (of_nat (length ks));
  Ok (<[key := base + linked_bonus]> probdis).

Definition transition_model (corpus : gmap string (gset string))
    (page : string) (damping_factor : Qc) : outcome (gmap string Qc) :=
  let ks := keys corpus in
  pages ← getitem corpus page;
  foldM (transition_step pages ks damping_factor) ∅ ks.

(** ** [iterate_pagerank] (lines 107-142) *)

(** Lines 130-133: what one [parent] adds to [partial_prob]. *)
Definition partial_step (corpus : gmap string (gset string))
    (previous_prob_dis : gmap string Qc) (pages : list string) (page : string)
    (partial_prob : Qc) (parent : string) : outcome Qc :=
  links ← getitem corpus parent;
  if decide (page ∈ links) then
    prev ← getitem previous_prob_dis parent;
    q ← truediv prev (of_nat (size links));
    Ok (partial_prob + q)
  else if decide (size links = 0%nat) then
    q ← truediv 1 (of_nat (length pages));
    Ok (partial_prob + q)
  else Ok partial_prob.

(** [set(pages).difference(set([page]))], in iteration order. *)
Definition parents_of (pages : list string) (page : string) : list string :=
  elements ((list_to_set pages : gset string) ∖ {[ page ]}).

(** Lines 128-137: the body of the loop over [pages] within one pass.  The
    state is [prob_dis], updated in place, and the array [prob_dis_diff]. *)
Definition update_page (corpus : gmap string (gset string)) (d : Qc)
    (pages : list string) (previous_prob_dis : gmap string Qc)
    (st : gmap string Qc * list Qc) (page : string)
    : outcome (gmap string Qc * list Qc) :=
  partial_prob ← foldM (partial_step corpus previous_prob_dis pages page) 0
                       (parents_of pages page);
  base ← truediv (1 - d) (of_nat (length pages));
  let prob_dis := <[page := base + d * partial_prob]> st.1 in
  prev ← getitem previous_prob_dis page;
  new ← getitem prob_dis page;
  Ok (prob_dis, st.2 ++ [Qcabs (prev - new)]).

(** Line 139: [not (prob_dis_diff > 0.001).any()]. *)
Definition no_change (prob_dis_diff : list Qc) : bool :=
  negb (existsb (λ x, bool_decide (threshold < x)) prob_dis_diff).

(** Lines 125-140: one pass of the [while] loop; the answer is the updated
    [prob_dis] and the new value of [converged]. *)
Definition pass (corpus : gmap string (gset string)) (d : Qc)
    (pages : list string) (prob_dis : gmap string Qc)
    : outcome (gmap string Qc * bool) :=
  let previous_prob_dis := prob_dis in
  st ← foldM (update_page corpus d pages previous_prob_dis) (prob_dis, []) pages;
  Ok (st.1, no_change st.2).

(** The [while not(converged)] loop with a budget of passes. *)
Fixpoint iterate_loop (fuel : nat) (corpus : gmap string (gset string))
    (d : Qc) (pages : list string) (prob_dis : gmap string Qc)
    : option (outcome (gmap string Qc)) :=
  match fuel with
  | O => None
  | S fuel' =>
      match pass corpus d pages prob_dis with
      | Raise e => Some (Raise e)
      | Ok (prob_dis', converged) =>
          if converged then Some (Ok prob_dis')
          else iterate_loop fuel' corpus d pages prob_dis'
      end
  end.

(** Lines 116-120: every page starts at [1/len(pages)]. *)
Definition initial_dis (pages : list string) : outcome (gmap string Qc) :=
  foldM (λ prob_dis page,
           q ← truediv 1 (of_nat (length pages)); Ok (<[page := q]> prob_dis))
        ∅ pages.

Definition iterate_pagerank (fuel : nat) (corpus : gmap string (gset string))
    (damping_factor : Qc) : option (outcome (gmap string Qc)) :=
  let pages := keys corpus in
  match initial_dis pages with
  | Raise e => Some (Raise e)
  | Ok prob_dis => iterate_loop fuel corpus damping_factor pages prob_dis
  end.

(** ** The [random] module

    The process-wide generator is a state of type [G].  [randbelow n] is
    [_randbelow(n)], an integer of [range(n)]; [random] is [random()]. *)
Class RandomSource (G : Type) : Type := {
  randbelow : nat → G → nat * G;
  random : G → Qc * G;
  randbelow_lt (n : nat) (g : G) : (0 < n)%nat → ((randbelow n g).1 < n)%nat
}.

(** [seq[i]] on a list. *)
Definition list_getitem {A : Type} (seq : list A) (i : nat) : outcome A :=
  match seq !! i with
  | Some x => Ok x
  | None => Raise IndexError
  end.

(** [random.choice(seq)]. *)
Definition choice {G : Type} `{RandomSource G} {A : Type} (seq : list A)
    (g : G) : outcome (A * G) :=
  if decide (length seq = 0%nat) then Raise IndexError
  else
    let '(i, g') := randbelow (length seq) g in
    x ← list_getitem seq i;
    Ok (x, g').

(** [itertools.accumulate(weights)]: the running sums. *)
Fixpoint accumulate_from (acc : Qc) (weights : list Qc) : list Qc :=
  match weights with
  | [] => []
  | w :: weights' => (acc + w) :: accumulate_from (acc + w) weights'
  end.

Definition accumulate (weights : list Qc) : list Qc :=
  match weights with
  | [] => []
  | w :: weights' => w :: accumulate_from w weights'
  end.

(** [bisect.bisect_right(a, x, lo, hi)]; the loop halves [hi - lo], which
    bounds the number of its rounds. *)
Fixpoint bisect_loop (rounds : nat) (a : list Qc) (x : Qc) (lo hi : nat)
    : outcome nat :=
  match rounds with
  | O => Ok lo
  | S rounds' =>
      if decide (lo < hi)%nat then
        let mid := ((lo + hi) / 2)%nat in
        a_mid ← list_getitem a mid;
        if decide (x < a_mid) then bisect_loop rounds' a x lo mid
        else bisect_loop rounds' a x (mid + 1) hi
      else Ok lo
  end.

Definition bisect (a : list Qc) (x : Qc) (lo hi : nat) : outcome nat :=
  bisect_loop (hi - lo) a x lo hi.

(** [random.choices(population, weights=weights, k=1).pop()]. *)
Definition choices {G : Type} `{RandomSource G} {A : Type}
    (population : list A) (weights : list Qc) (g : G) : outcome (A * G) :=
  let n := length population in
  let cum_weights := accumulate weights in
  if decide (length cum_weights ≠ n) then Raise ValueError
  else
    total ← match last cum_weights with
            | Some t => Ok t
            | None => Raise IndexError
            end;
    if decide (total ≤ 0) then Raise ValueError
    else
      let hi := (n - 1)%nat in
      let '(r, g') := random g in
      i ← bisect cum_weights (r * total) 0 hi;
      x ← list_getitem population i;
      Ok (x, g').

(** ** [sample_pagerank] (lines 78-104) *)

(** Lines 93-96: the weights of the pages, in the order of the keys. *)
Definition weights_of (prob_dis : gmap string Qc) : outcome (list Qc) :=
  foldM (λ probs key, v ← getitem prob_dis key; Ok (probs ++ [v]))
        [] (keys prob_dis).

(** Lines 91-99: the loop [for _ in range(n-1)], with [steps] rounds left. *)
Fixpoint walk {G : Type} `{RandomSource G} (steps : nat)
    (corpus : gmap string (gset string)) (d : Qc) (cur_page : string)
    (pageranks_raw : list string) (g : G) : outcome (list string * G) :=
  match steps with
  | O => Ok (pageranks_raw, g)
  | S steps' =>
      prob_dis ← transition_model corpus cur_page d;
      probs ← weights_of prob_dis;
      '(cur_page', g') ← choices (keys prob_dis) probs g;
      walk steps' corpus d cur_page' (pageranks_raw ++ [cur_page']) g'
  end.

(** Lines 88-99: the list [pageranks_raw] of the visited pages. *)
Definition sample_visits {G : Type} `{RandomSource G}
    (corpus : gmap string (gset string)) (d : Qc) (n : nat) (g : G)
    : outcome (list string * G) :=
  '(cur_page, g') ← choice (keys corpus) g;
  walk (n - 1) corpus d cur_page [cur_page] g'.

(** [l.count(x)]. *)
Definition count (x : string) (l : list string) : nat :=
  length (filter (λ y, y = x) l).

Definition sample_pagerank {G : Type} `{RandomSource G}
    (corpus : gmap string (gset string)) (damping_factor : Qc) (n : nat)
    (g : G) : outcome (gmap string Qc * G) :=
  '(pageranks_raw, g') ← sample_visits corpus damping_factor n g;
  pageranks ← foldM (λ pageranks key,
                 q ← truediv (of_nat (count key pageranks_raw)) (of_nat n);
                 Ok (<[key := q]> pageranks))
               ∅ (keys corpus);
  Ok (pageranks, g').

(** A seeded generator: a counter, read modulo the bound. *)
#[global] Program Instance counter_source : RandomSource nat := {
  randbelow n g := ((g `mod` n)%nat, S g);
  random g := (of_nat (g `mod` 10) / of_nat 10, S g)
}.
Next Obligation. intros n g Hn. cbn. apply Nat.mod_upper_bound. lia. Qed.

(** * Closed forms

    What the loops of the program compute, as the proofs below use them. *)

(** The dict built by [for k in l: m[k] = f(k)]. *)
Definition assign_all (f : string → Qc) (m : gmap string Qc) (l : list string)
    : gmap string Qc :=
  foldl (λ m k, <[k := f k]> m) m l.

(** What [transition_model] assigns to [key] when the corpus has [n] pages
    and the current page links to [pages]. *)
Definition transition_prob (n : nat) (pages : gset string) (d : Qc)
    (key : string) : Qc :=
  (1 - d) / of_nat n
  + (if decide (size pages = 0%nat) then d / of_nat n
     else if decide (key ∈ pages) then d / of_nat (size pages) else 0).

(** Every link of the corpus leads to a page of the corpus. *)
Definition closed (corpus : gmap string (gset string)) : Prop :=
  map_Forall (λ _ links, links ⊆ dom corpus) corpus.

(** No page links to itself. *)
Definition no_self_link (corpus : gmap string (gset string)) : Prop :=
  map_Forall (λ page links, page ∉ links) corpus.

(** [m[k]] for a key known to be present (and [0] outside the dict). *)
Definition value (m : gmap string Qc) (k : string) : Qc := default 0 (m !! k).

(** What [parent] adds to the partial sum of [page] (lines 130-133). *)
Definition contribution (corpus : gmap string (gset string))
    (previous : gmap string Qc) (n : nat) (page parent : string) : Qc :=
  match corpus !! parent with
  | Some links =>
      if decide (page ∈ links) then value previous parent / of_nat (size links)
      else if decide (size links = 0%nat) then 1 / of_nat n
      else 0
  | None => 0
  end.

(** The new rank of [page] after a pass over the ranks [previous]
    (lines 128-135). *)
Definition new_rank (corpus : gmap string (gset string)) (d : Qc)
    (previous : gmap string Qc) (page : string) : Qc :=
  (1 - d) / of_nat (size corpus)
  + d * sum_over (contribution corpus previous (size corpus) page)
                 (parents_of (keys corpus) page).

(** The dict [prob_dis] after a pass over the ranks [previous]. *)
Definition next (corpus : gmap string (gset string)) (d : Qc)
    (previous : gmap string Qc) : gmap string Qc :=
  assign_all (new_rank corpus d previous) previous (keys corpus).

(** The array [prob_dis_diff] after a pass over the ranks [previous]. *)
Definition differences (corpus : gmap string (gset string)) (d : Qc)
    (previous : gmap string Qc) : list Qc :=
  (λ page, Qcabs (value previous page - new_rank corpus d previous page))
    <$> keys corpus.

(** The dict [prob_dis] before the first pass. *)
Definition uniform (corpus : gmap string (gset string)) : gmap string Qc :=
  assign_all (λ _, 1 / of_nat (size corpus)) ∅ (keys corpus).

(** The dict [prob_dis] after [n] passes. *)
Fixpoint ranks (corpus : gmap string (gset string)) (d : Qc) (n : nat)
    : gmap string Qc :=
  match n with
  | O => uniform corpus
  | S n' => next corpus d (ranks corpus d n')
  end.

(** No page's value changes by more than the threshold in a pass over
    [previous]. *)
Definition settled (corpus : gmap string (gset string)) (d : Qc)
    (previous : gmap string Qc) : Prop :=
  ∀ page, page ∈ dom corpus →
    Qcabs (value previous page - value (next corpus d previous) page) ≤ threshold.

(** The share of the rank of [parent] that a pass hands to [page]. *)
Definition weight (corpus : gmap string (gset string)) (parent page : string)
    : Qc :=
  match corpus !! parent with
  | Some links => if decide (page ∈ links) then 1 / of_nat (size links) else 0
  | None => 0
  end.

(** The distance between two rank dicts: the sum over the pages of the
    absolute differences. *)
Definition dist1 (corpus : gmap string (gset string)) (x y : gmap string Qc)
    : Qc :=
  sum_over (λ page, Qcabs (value x page - value y page)) (keys corpus).

(** Every page has an outbound link. *)
Definition no_dangling (corpus : gmap string (gset string)) : Prop :=
  map_Forall (λ _ links, links ≠ ∅) corpus.

#[global] Instance no_dangling_dec corpus : Decision (no_dangling corpus).
Proof. unfold no_dangling. apply _. Defined.

(** * The corpora of the specification *)

(** The symmetric 2-cycle [{A: {B}, B: {A}}]. *)
Definition two_cycle : gmap string (gset string) :=
  {[ "A" := {[ "B" ]}; "B" := {[ "A" ]} ]}.

(** The single isolated page [{A: {}}]. *)
Definition single : gmap string (gset string) := {[ "A" := ∅ ]}.

(** The chain [A -> B -> C], whose last page is dangling. *)
Definition chain : gmap string (gset string) :=
  {[ "A" := {[ "B" ]}; "B" := {[ "C" ]};
     "C" := ∅ ]}.

(** A 2-cycle with a third page that links into it. *)
Definition swing : gmap string (gset string) :=
  {[ "A" := {[ "B" ]}; "B" := {[ "A" ]}; "C" := {[ "A" ]} ]}.

(** The damping factor [DAMPING = 0.85]. *)
Definition DAMPING : Qc := Q2Qc (85 # 100).

(** The tolerances [1e-9] and [1e-6] of the testable properties. *)
Definition tol9 : Qc := Q2Qc (1 # 1000000000).
Definition tol6 : Qc := Q2Qc (1 # 1000000).

#[global] Instance exn_eq_dec : EqDecision exn.
Proof. solve_decision. Defined.

#[global] Instance outcome_eq_dec {A : Type} `{EqDecision A} :
  EqDecision (outcome A).
Proof. solve_decision. Defined.

#[global] Instance closed_dec corpus : Decision (closed corpus).
Proof. unfold closed. apply _. Defined.

#[global] Instance no_self_link_dec corpus : Decision (no_self_link corpus).
Proof. unfold no_self_link. apply _. Defined.

(** * Binary64 arithmetic

    What Python computes with is not the rationals: a [float] is an IEEE 754
    binary64 number, and every operation rounds its exact result to the
    nearest float, ties to even.  [SpecFloat] of the standard library
    specifies these numbers and operations.  The functions of lines 53-75
    and 107-142 are embedded a second time here, over these floats, for the
    statements that depend on the rounding. *)

#[global] Instance spec_float_eq_dec : EqDecision spec_float.
Proof. solve_decision. Defined.

Module Binary64.

Definition float : Type := spec_float.

(** 53 bits of mantissa, exponents below 1024. *)
Definition prec : Z := 53%Z.
Definition emax : Z := 1024%Z.

(** An [int] used in float arithmetic, here below [2^53]: the float of the
    same value. *)
Definition of_Z (z : Z) : float := binary_normalize prec emax z 0 false.
Definition of_nat (n : nat) : float := of_Z (Z.of_nat n).

Definition add : float → float → float := SFadd prec emax.
Definition sub : float → float → float := SFsub prec emax.
Definition mul : float → float → float := SFmul prec emax.
Definition abs : float → float := SFabs.

(** [x == y] and [x > y]. *)
Definition eqb : float → float → bool := SFeqb.
Definition gt (x y : float) : bool := SFltb y x.

Definition is_zero (x : float) : bool :=
  match x with S754_zero _ => true | _ => false end.

(** True division [x / y]. *)
Definition truediv (x y : float) : outcome float :=
  if is_zero y then Raise ZeroDivisionError else Ok (SFdiv prec emax x y).

(** A decimal literal with the digits [m] and [k] places after the point:
    the float nearest to [m / 10^k].  Both are floats for the literals of
    the program, and the division rounds their quotient to the nearest. *)
Definition literal (m : Z) (k : nat) : float :=
  SFdiv prec emax (of_Z m) (of_Z (10 ^ Z.of_nat k)).

(** [DAMPING = 0.85] and the [0.001] of the convergence test. *)
Definition DAMPING : float := literal 85 2.
Definition threshold : float := literal 1 3.

(** The rational that a finite float is. *)
Definition exact (x : float) : option Qc :=
  match x with
  | S754_zero _ => Some 0
  | S754_finite s m e =>
      Some (Q2Qc (inject_Z (cond_Zopp s (Z.pos m)) * Qpower 2 e))
  | _ => None
  end.

(** [x] is a number, and within [tol] of [q]. *)
Definition within (x : float) (q tol : Qc) : Prop :=
  ∃ v, exact x = Some v ∧ Qcabs (v - q) ≤ tol.

(** Lines 67-73: the body of the loop over [keys]. *)
Definition transition_step (pages : gset string) (ks : list string)
    (d : float) (probdis : gmap string float) (key : string)
    : outcome (gmap string float) :=
  linked_bonus ← (if decide (key ∈ pages)
                  then truediv d (of_nat (size pages)) else Ok (of_Z 0));
  linked_bonus ← (if decide (size pages = 0%nat)
                  then truediv d (of_nat (length ks)) else Ok linked_bonus);
  base ← truediv (sub (of_Z 1) d) (of_nat (length ks));
  Ok (<[key := add base linked_bonus]> probdis).

Definition transition_model (corpus : gmap string (gset string))
    (page : string) (damping_factor : float) : outcome (gmap string float) :=
  let ks := keys corpus in
  pages ← getitem corpus page;
  foldM (transition_step pages ks damping_factor) ∅ ks.

(** Lines 130-133. *)
Definition partial_step (corpus : gmap string (gset string))
    (previous_prob_dis : gmap string float) (pages : list string)
    (page : string) (partial_prob : float) (parent : string)
    : outcome float :=
  links ← getitem corpus parent;
  if decide (page ∈ links) then
    prev ← getitem previous_prob_dis parent;
    q ← truediv prev (of_nat (size links));
    Ok (add partial_prob q)
  else if decide (size links = 0%nat) then
    q ← truediv (of_Z 1) (of_nat (length pages));
    Ok (add partial_prob q)
  else Ok partial_prob.

(** Lines 128-137. *)
Definition update_page (corpus : gmap string (gset string)) (d : float)
    (pages : list string) (previous_prob_dis : gmap string float)
    (st : gmap string float * list float) (page : string)
    : outcome (gmap string float * list float) :=
  partial_prob ← foldM (partial_step corpus previous_prob_dis pages page)
                       (of_Z 0) (parents_of pages page);
  base ← truediv (sub (of_Z 1) d) (of_nat (length pages));
  let prob_dis := <[page := add base (mul d partial_prob)]> st.1 in
  prev ← getitem previous_prob_dis page;
  new ← getitem prob_dis page;
  Ok (prob_dis, st.2 ++ [abs (sub prev new)]).

(** Line 139. *)
Definition no_change (prob_dis_diff : list float) : bool :=
  negb (existsb (λ x, gt x threshold) prob_dis_diff).

(** Lines 125-140. *)
Definition pass (corpus : gmap string (gset string)) (d : float)
    (pages : list string) (prob_dis : gmap string float)
    : outcome (gmap string float * bool) :=
  let previous_prob_dis := prob_dis in
  st ← foldM (update_page corpus d pages previous_prob_dis) (prob_dis, [])
             pages;
  Ok (st.1, no_change st.2).

Fixpoint iterate_loop (fuel : nat) (corpus : gmap string (gset string))
    (d : float) (pages : list string) (prob_dis : gmap string float)
    : option (outcome (gmap string float)) :=
  match fuel with
  | O => None
  | S fuel' =>
      match pass corpus d pages prob_dis with
      | Raise e => Some (Raise e)
      | Ok (prob_dis', converged) =>
          if converged then Some (Ok prob_dis')
          else iterate_loop fuel' corpus d pages prob_dis'
      end
  end.

(** Lines 116-120. *)
Definition initial_dis (pages : list string) : outcome (gmap string float) :=
  foldM (λ prob_dis page,
           q ← truediv (of_Z 1) (of_nat (length pages));
           Ok (<[page := q]> prob_dis))
        ∅ pages.

Definition iterate_pagerank (fuel : nat) (corpus : gmap string (gset string))
    (damping_factor : float) : option (outcome (gmap string float)) :=
  let pages := keys corpus in
  match initial_dis pages with
  | Raise e => Some (Raise e)
  | Ok prob_dis => iterate_loop fuel corpus damping_factor pages prob_dis
  end.

End Binary64.

(** * The crawler (lines 26-50)

    [crawl] reads the file system and may stop with an exception of the
    operating system; the model does not look into that exception.  A
    character of a [string] is a code point below 256. *)

(** ** Strings *)

(** [s.endswith(suffix)]. *)
Fixpoint endswith (s suffix : string) : bool :=
  if String.eqb s suffix then true
  else match s with
       | String _ s' => endswith s' suffix
       | EmptyString => false
       end.

(** What follows the prefix [p] of [s], when [s.startswith(p)]. *)
Fixpoint strip_prefix (p s : string) : option string :=
  match p, s with
  | EmptyString, _ => Some s
  | String a p', String b s' =>
      if Ascii.eqb a b then strip_prefix p' s' else None
  | String _ _, EmptyString => None
  end.

(** [c in s], for a character [c]. *)
Fixpoint has_char (s : string) (c : ascii) : bool :=
  match s with
  | EmptyString => false
  | String b s' => Ascii.eqb b c || has_char s' c
  end.

(** ** The regular expression of line 40

    The pattern reads, from left to right: the two characters [<a]; one or
    more white space characters (greedy); as few characters other than [>] as
    possible (lazy); [href=] and a double quote; the group, which is the run
    of characters up to the next double quote; and that double quote. *)

(** The double quote. *)
Definition quote : ascii := "034"%char.

(** [href=] followed by a double quote. *)
Definition href : string := "href=" +:+ String quote EmptyString.

(** The white space class of a [str] pattern, on the code points below 256:
    tab to carriage return, the four separators 28 to 31, the space, NEL and
    the no-break space. *)
Definition is_space (c : ascii) : bool :=
  let n := nat_of_ascii c in
  ((9 <=? n) && (n <=? 13) || (28 <=? n) && (n <=? 32)
   || (n =? 133) || (n =? 160))%nat.

(** The group and the double quote that closes it, at the start of [s]: the
    characters before the first double quote, and what follows it. *)
Fixpoint quoted (s : string) : option (string * string) :=
  match s with
  | EmptyString => None
  | String c s' =>
      if Ascii.eqb c quote then Some (EmptyString, s')
      else '(link, rest) ← quoted s'; Some (String c link, rest)
  end.

(** [href=], the group and its quotes, at the start of [s]. *)
Definition href_at (s : string) : option (string * string) :=
  rest ← strip_prefix href s; quoted rest.

(** The lazy run of characters other than [>], then [href_at]: the first
    place where [href_at] matches, no [>] standing before it. *)
Fixpoint attr_scan (s : string) : option (string * string) :=
  match href_at s with
  | Some r => Some r
  | None =>
      match s with
      | EmptyString => None
      | String c s' => if Ascii.eqb c ">"%char then None else attr_scan s'
      end
  end.

(** The pattern at the start of [s]: the group, and what follows the match.
    Giving back white space of the greedy run opens no new place to the
    lazy run, since [href] does not start with white space; so one white
    space character is taken and the rest is left to [attr_scan]. *)
Definition match_at (s : string) : option (string * string) :=
  rest ← strip_prefix "<a" s;
  match rest with
  | EmptyString => None
  | String c rest' => if is_space c then attr_scan rest' else None
  end.

(** The scan of [re.findall]: a match is looked for at each place from left
    to right, and the scan goes on after the end of a match.  Every round
    drops a character at least, which bounds the rounds by the length. *)
Fixpoint findall_from (rounds : nat) (s : string) : list string :=
  match rounds with
  | O => []
  | S rounds' =>
      match match_at s with
      | Some (link, rest) => link :: findall_from rounds' rest
      | None =>
          match s with
          | EmptyString => []
          | String _ s' => findall_from rounds' s'
          end
      end
  end.

(** [re.findall(pattern, contents)] for the pattern of line 40. *)
Definition findall (contents : string) : list string :=
  findall_from (S (String.length contents)) contents.

(** ** The file system and the process *)

(** How a run ends, when not by a result: an exception of the core that
    nobody catches; an [OSError] of the operating system; the
    [UnicodeDecodeError] of a file whose bytes are not text in the encoding
    of [open]; or [sys.exit]. *)
Inductive error : Type :=
  | Exception (e : exn)
  | OSError
  | UnicodeDecodeError
  | SystemExit (message : string).

Inductive io (A : Type) : Type :=
  | Done (a : A)
  | Stop (e : error).
Arguments Done {A} a.
Arguments Stop {A} e.

#[global] Instance io_ret : MRet io := λ A a, Done a.
#[global] Instance io_bind : MBind io := λ A B f m,
  match m with Done a => f a | Stop e => Stop e end.

#[global] Instance error_eq_dec : EqDecision error.
Proof. solve_decision. Defined.

#[global] Instance io_eq_dec {A : Type} `{EqDecision A} : EqDecision (io A).
Proof. solve_decision. Defined.

(** A computation of the core, run by the process. *)
Definition lift {A : Type} (m : outcome A) : io A :=
  match m with Ok a => Done a | Raise e => Stop (Exception e) end.

(** What a call has returned, if it has not raised. *)
Definition returned {A : Type} (m : io A) : option A :=
  match m with Done a => Some a | Stop _ => None end.

(** A [for] loop whose body may stop the run. *)
Fixpoint for_each {A B : Type} (f : B → A → io B) (b : B) (l : list A)
    : io B :=
  match l with
  | [] => Done b
  | x :: l' => b' ← f b x; for_each f b' l'
  end.

(** The part of the file system that [crawl] reads.  [os_listdir directory]
    is [os.listdir(directory)]: the names of the entries, or the exception
    that the call raises.  [path_join] is [os.path.join].  [open_read path]
    is lines 38-39, [open(path)] followed by [f.read()]: the text of the
    file, or the exception that one of the two calls raises, an [OSError]
    when the file cannot be opened or read and a [UnicodeDecodeError] when
    its bytes cannot be decoded. *)
Record filesystem : Type := {
  os_listdir : string → io (list string);
  path_join : string → string → string;
  open_read : string → io string
}.

(** The entries of a directory that can be listed, and the text of a file
    that can be read. *)
Definition listdir (fs : filesystem) (directory : string)
    : option (list string) :=
  returned (os_listdir fs directory).

Definition read (fs : filesystem) (path : string) : option string :=
  returned (open_read fs path).

(** ** [crawl] *)

(** Lines 36-41: one entry of the directory. *)
Definition crawl_entry (fs : filesystem) (directory : string)
    (pages : gmap string (gset string)) (filename : string)
    : io (gmap string (gset string)) :=
  if negb (endswith filename ".html") then Done pages
  else
    contents ← open_read fs (path_join fs directory filename);
    let links := findall contents in
    Done (<[filename := list_to_set links ∖ {[ filename ]}]> pages).

(** Lines 45-48: the links of [filename] that are pages. *)
Definition crawl_filter (pages : gmap string (gset string))
    (filename : string) : io (gmap string (gset string)) :=
  links ← lift (getitem pages filename);
  Done (<[filename := filter (λ link, link ∈ dom pages) links]> pages).

Definition crawl (fs : filesystem) (directory : string)
    : io (gmap string (gset string)) :=
  names ← os_listdir fs directory;
  pages ← for_each (crawl_entry fs directory) ∅ names;
  for_each crawl_filter pages (keys pages).

(** ** Directories in memory *)

(** A directory in memory: its entries and their texts, under POSIX paths.
    Nothing else is there: listing another directory and opening another
    path raise [FileNotFoundError], an [OSError]. *)
Definition folder (directory : string) (files : list (string * string))
    : filesystem :=
  {| os_listdir d :=
       if decide (d = directory) then Done files.*1 else Stop OSError;
     path_join d f := d +:+ "/" +:+ f;
     open_read path :=
       match strip_prefix (directory +:+ "/") path
             ≫= ((list_to_map files : gmap string string) !!.) with
       | Some contents => Done contents
       | None => Stop OSError
       end |}.

(** The file system [fs] with, at [path], a file whose bytes are not text:
    it can be opened, and [f.read()] raises [UnicodeDecodeError]. *)
Definition with_binary_file (fs : filesystem) (path : string) : filesystem :=
  {| os_listdir := os_listdir fs;
     path_join := path_join fs;
     open_read p :=
       if decide (p = path) then Stop UnicodeDecodeError else open_read fs p |}.

(** An anchor that links to [link]. *)
Definition anchor (link : string) : string :=
  "<a " +:+ href +:+ link +:+ String quote ">".

(** A page that holds an anchor for each of [links]. *)
Definition page_of (links : list string) : string :=
  foldr (λ link text, anchor link +:+ text) EmptyString links.

(** An example directory: two pages that link to each other, to themselves
    and to a file that is not there, and a file that is not a page. *)
Definition site : list (string * string) :=
  [("1.html", page_of ["2.html"; "1.html"; "9.html"]);
   ("2.html", page_of ["1.html"; "2.html"]);
   ("notes.txt", "<a href=1.html>")]%list.

(** The directory that renders a corpus: for each page, a text that holds an
    anchor for each of its links. *)
Definition site_of (corpus : gmap string (gset string))
    : list (string * string) :=
  map_to_list ((λ links, page_of (elements links)) <$> corpus).

(** * The program (lines 8-23)

    [main] is run on the command line [argv], the file system and the state
    of the random generator.  Its result is what it has printed, line by
    line, and how it ends; [None] stands for a loop that is still running
    when the budget of passes is used up.  How a float is written with four
    decimals is left to the parameter [format]. *)

(** [SAMPLES = 10000]. *)
Definition SAMPLES : nat := N.to_nat 10000.

(** The message of [sys.exit] on line 14. *)
Definition usage : string := "Usage: python pagerank.py corpus".

(** The lines printed on lines 17 and 21. *)
Definition sampling_header : string :=
  "PageRank Results from Sampling (n = " +:+ pretty SAMPLES +:+ ")".
Definition iteration_header : string := "PageRank Results from Iteration".

(** [sorted(ranks)]: the keys in increasing order. *)
Definition sorted (ranks : gmap string Qc) : list string :=
  merge_sort String.le (keys ranks).

(** The line printed for [page] on lines 19 and 23. *)
Definition rank_line (format : Qc → string) (page : string) (rank : Qc)
    : string :=
  "  " +:+ page +:+ ": " +:+ format rank.

(** The loops of lines 18-19 and 22-23, over the pages still to print. *)
Fixpoint print_ranks (format : Qc → string) (ranks : gmap string Qc)
    (pages : list string) (out : list string) : list string * io unit :=
  match pages with
  | [] => (out, Done ())
  | page :: pages' =>
      match getitem ranks page with
      | Raise e => (out, Stop (Exception e))
      | Ok rank =>
          print_ranks format ranks pages' (out ++ [rank_line format page rank])
      end
  end.

Definition main {G : Type} `{RandomSource G} (format : Qc → string)
    (fuel : nat) (argv : list string) (fs : filesystem) (g : G)
    : option (list string * io unit) :=
  if decide (length argv ≠ 2%nat) then Some ([], Stop (SystemExit usage))
  else
    match (directory ← lift (list_getitem argv 1);
           corpus ← crawl fs directory;
           '(ranks, _) ← lift (sample_pagerank corpus DAMPING SAMPLES g);
           Done (corpus, ranks)) with
    | Stop e => Some ([], Stop e)
    | Done (corpus, ranks) =>
        match print_ranks format ranks (sorted ranks) [sampling_header] with
        | (out, Stop e) => Some (out, Stop e)
        | (out, Done _) =>
            match iterate_pagerank fuel corpus DAMPING with
            | None => None
            | Some (Raise e) => Some (out, Stop (Exception e))
            | Some (Ok ranks) =>
                Some (print_ranks format ranks (sorted ranks)
                        (out ++ [iteration_header]))
            end
        end
    end.

(** A way to write a rank, for the examples: as a fraction. *)
Definition as_fraction (q : Qc) : string :=
  pretty (Qnum q) +:+ "/" +:+ pretty (Z.pos (Qden q)).

(** * Verification *)

(** ** Rational arithmetic

    [qc2q] turns a goal over [Qc] into the same goal over [Q], where [lra]
    and [nra] apply. *)

Lemma Qc_eq_this (x y : Qc) : x = y → (this x == this y)%Q.
Proof. by intros ->. Qed.

Ltac qc2q :=
  try apply Qc_is_canon;
  repeat match goal with
  | H : @eq Qc _ _ |- _ => apply Qc_eq_this in H
  | H : ¬ @eq Qc _ _ |- _ =>
      let H' := fresh in
      assert (H' := λ E, H (Qc_is_canon _ _ E)); clear H
  end;
  unfold Qcle, Qclt, Qcminus, Qcplus, Qcopp, Qcmult, Q2Qc in *;
  cbn [this] in *;
  repeat match goal with
  | H : context [Qred _] |- _ => setoid_rewrite Qred_correct in H
  | |- context [Qred _] => setoid_rewrite Qred_correct
  end.
Ltac qc_lra := qc2q; lra.
Ltac qc_nra := qc2q; nra.

Lemma of_nat_S (n : nat) : of_nat (S n) = of_nat n + 1.
Proof.
  unfold of_nat, Qc_of_Z. qc2q. rewrite Nat2Z.inj_succ, <- Z.add_1_r.
  rewrite inject_Z_plus. reflexivity.
Qed.

Lemma of_nat_0 : of_nat 0 = 0.
Proof. by apply Qc_is_canon. Qed.

Lemma of_nat_nonneg (n : nat) : 0 ≤ of_nat n.
Proof.
  induction n as [|n IH]; [by rewrite of_nat_0|]. rewrite of_nat_S. qc_lra.
Qed.

Lemma of_nat_pos (n : nat) : (0 < n)%nat → 0 < of_nat n.
Proof.
  destruct n as [|n]; [lia|]. intros _. rewrite of_nat_S.
  pose proof (of_nat_nonneg n). qc_lra.
Qed.

Lemma of_nat_ne_0 (n : nat) : n ≠ 0%nat → of_nat n ≠ 0.
Proof. intros Hn. pose proof (of_nat_pos n). intros E. rewrite E in H. 
  assert (0 < 0) by (apply H; lia). qc_lra. Qed.

Lemma of_nat_le (n m : nat) : (n ≤ m)%nat → of_nat n ≤ of_nat m.
Proof.
  induction 1 as [|m _ IH]; [qc_lra|]. rewrite of_nat_S. qc_lra.
Qed.

Lemma truediv_ok (x y : Qc) : y ≠ 0 → truediv x y = Ok (x / y).
Proof. intros Hy. unfold truediv. by rewrite decide_False. Qed.

Lemma truediv_zero (x : Qc) : truediv x 0 = Raise ZeroDivisionError.
Proof. unfold truediv. by rewrite decide_True. Qed.

(** ** Sums over lists *)

Section sums.
Context {A : Type}.
Implicit Types (f g : A → Qc) (l : list A).

Lemma sum_over_nil f : sum_over f [] = 0.
Proof. done. Qed.

Lemma sum_over_cons f x l : sum_over f (x :: l) = f x + sum_over f l.
Proof. done. Qed.

Lemma sum_over_app f l1 l2 :
  sum_over f (l1 ++ l2) = sum_over f l1 + sum_over f l2.
Proof.
  induction l1 as [|x l1 IH]; [by rewrite Qcplus_0_l|].
  cbn [app]. rewrite !sum_over_cons, IH. ring.
Qed.

Lemma sum_over_perm f l1 l2 : l1 ≡ₚ l2 → sum_over f l1 = sum_over f l2.
Proof.
  induction 1 as [|x l1 l2 _ IH|x y l|l1 l2 l3 _ IH1 _ IH2];
    rewrite ?sum_over_cons; [done|by rewrite IH|ring|congruence].
Qed.

Lemma sum_over_ext f g l :
  (∀ x, x ∈ l → f x = g x) → sum_over f l = sum_over g l.
Proof.
  induction l as [|x l IH]; intros Hfg; [done|].
  rewrite !sum_over_cons, Hfg, IH; [done| |left].
  intros y Hy. apply Hfg. by right.
Qed.

Lemma sum_over_le f g l :
  (∀ x, x ∈ l → f x ≤ g x) → sum_over f l ≤ sum_over g l.
Proof.
  induction l as [|x l IH]; intros Hfg; [done|].
  rewrite !sum_over_cons. apply Qcplus_le_compat.
  - apply Hfg. left.
  - apply IH. intros y Hy. apply Hfg. by right.
Qed.

Lemma sum_over_nonneg f l : (∀ x, x ∈ l → 0 ≤ f x) → 0 ≤ sum_over f l.
Proof.
  intros Hf. induction l as [|x l IH]; [done|]. rewrite sum_over_cons.
  apply Qcplus_nonneg_nonneg; [apply Hf; left|].
  apply IH. intros y Hy. apply Hf. by right.
Qed.

Lemma sum_over_plus f g l :
  sum_over (λ x, f x + g x) l = sum_over f l + sum_over g l.
Proof.
  induction l as [|x l IH]; [by rewrite Qcplus_0_l|].
  rewrite !sum_over_cons, IH. ring.
Qed.

Lemma sum_over_scale c f l :
  sum_over (λ x, c * f x) l = c * sum_over f l.
Proof.
  induction l as [|x l IH]; [by rewrite sum_over_nil, Qcmult_0_r|].
  rewrite !sum_over_cons, IH. ring.
Qed.

Lemma sum_over_const c l : sum_over (λ _, c) l = of_nat (length l) * c.
Proof.
  induction l as [|x l IH]; cbn [length].
  { by rewrite of_nat_0, Qcmult_0_l. }
  rewrite sum_over_cons, IH, of_nat_S. ring.
Qed.

Lemma sum_over_indicator (P : A → Prop) `{∀ x, Decision (P x)} c l :
  sum_over (λ x, if decide (P x) then c else 0) l
  = of_nat (length (filter P l)) * c.
Proof.
  induction l as [|x l IH].
  { rewrite filter_nil. cbn [length]. by rewrite of_nat_0, Qcmult_0_l. }
  rewrite sum_over_cons, IH, filter_cons. case_decide.
  - cbn [length]. rewrite of_nat_S. ring.
  - ring.
Qed.

Lemma sum_over_abs f l : Qcabs (sum_over f l) ≤ sum_over (λ x, Qcabs (f x)) l.
Proof.
  induction l as [|x l IH]; [done|]. rewrite !sum_over_cons.
  etrans; [apply Qcabs_triangle|]. by apply Qcplus_le_compat.
Qed.

Lemma sum_over_elem_le f l x :
  (∀ y, y ∈ l → 0 ≤ f y) → x ∈ l → f x ≤ sum_over f l.
Proof.
  intros Hf Hx. induction l as [|y l IH]; [by apply elem_of_nil in Hx|].
  rewrite sum_over_cons.
  assert (0 ≤ f y) by (apply Hf; left).
  assert (0 ≤ sum_over f l).
  { apply sum_over_nonneg. intros z Hz. apply Hf. by right. }
  apply elem_of_cons in Hx as [->|Hx]; [qc_lra|].
  assert (f x ≤ sum_over f l).
  { apply IH; [|done]. intros z Hz. apply Hf. by right. }
  qc_lra.
Qed.
End sums.

Lemma sum_over_exchange {A B : Type} (h : A → B → Qc) (l1 : list A)
    (l2 : list B) :
  sum_over (λ x, sum_over (λ y, h x y) l2) l1
  = sum_over (λ y, sum_over (λ x, h x y) l1) l2.
Proof.
  induction l1 as [|x l1 IH].
  - rewrite sum_over_nil. symmetry.
    rewrite (sum_over_ext _ (λ _, 0)) by done.
    rewrite sum_over_const. ring.
  - rewrite sum_over_cons, IH, <- sum_over_plus. done.
Qed.

(** ** Loops *)

Lemma foldM_app {A B : Type} (f : B → A → outcome B) (b : B) (l1 l2 : list A) :
  foldM f b (l1 ++ l2) = (b' ← foldM f b l1; foldM f b' l2).
Proof.
  revert b. induction l1 as [|x l1 IH]; intros b; [done|].
  cbn. destruct (f b x); [apply IH|done].
Qed.

(** A loop whose body never raises on the elements it visits is a fold. *)
Lemma foldM_pure {A B : Type} (f : B → A → outcome B) (g : B → A → B)
    (b : B) (l : list A) :
  (∀ b x, x ∈ l → f b x = Ok (g b x)) → foldM f b l = Ok (foldl g b l).
Proof.
  revert b. induction l as [|x l IH]; intros b Hf; [done|].
  cbn. rewrite Hf by left. cbn. apply IH. intros b' y Hy. apply Hf. by right.
Qed.

(** ** Dictionaries *)

Lemma lookup_assign_all f m l k :
  assign_all f m l !! k = if decide (k ∈ l) then Some (f k) else m !! k.
Proof.
  revert m. induction l as [|x l IH]; intros m; cbn.
  { rewrite decide_False; [done|]. apply not_elem_of_nil. }
  fold (assign_all f (<[x:=f x]> m) l). rewrite IH.
  destruct (decide (k ∈ l)) as [Hk|Hk].
  - rewrite decide_True; [done|by right].
  - destruct (decide (k = x)) as [->|Hne].
    + rewrite decide_True by left. apply lookup_insert_eq.
    + rewrite decide_False; [by apply lookup_insert_ne|].
      intros [?|?]%elem_of_cons; done.
Qed.

Lemma dom_assign_all f m l :
  dom (assign_all f m l) = list_to_set l ∪ dom m.
Proof.
  apply set_eq. intros k. rewrite elem_of_dom, lookup_assign_all.
  rewrite elem_of_union, elem_of_list_to_set, elem_of_dom.
  destruct (decide (k ∈ l)).
  - split; [by left|by eexists].
  - split; [by right|by intros [?|?]].
Qed.

Lemma elem_of_keys {V : Type} (m : gmap string V) k :
  k ∈ keys m ↔ is_Some (m !! k).
Proof.
  unfold keys. rewrite list_elem_of_fmap. split.
  - intros [[k' v] [-> Hkv%elem_of_map_to_list]]. by exists v.
  - intros [v Hv]. exists (k, v). split; [done|]. by apply elem_of_map_to_list.
Qed.

Lemma NoDup_keys {V : Type} (m : gmap string V) : NoDup (keys m).
Proof. apply NoDup_fst_map_to_list. Qed.

Lemma length_keys {V : Type} (m : gmap string V) : length (keys m) = size m.
Proof. unfold keys. by rewrite length_fmap, length_map_to_list. Qed.

Lemma list_to_set_keys {V : Type} (m : gmap string V) :
  list_to_set (keys m) =@{gset string} dom m.
Proof.
  apply set_eq. intros k. by rewrite elem_of_list_to_set, elem_of_keys, elem_of_dom.
Qed.

Lemma keys_perm {V W : Type} (m1 : gmap string V) (m2 : gmap string W) :
  dom m1 = dom m2 → keys m1 ≡ₚ keys m2.
Proof.
  intros Hdom. apply NoDup_Permutation; [apply NoDup_keys..|].
  intros k. by rewrite !elem_of_keys, <- !elem_of_dom, Hdom.
Qed.

Lemma keys_nonempty {V : Type} (m : gmap string V) k :
  is_Some (m !! k) → length (keys m) ≠ 0%nat.
Proof.
  intros Hk%elem_of_keys. destruct (keys m); [by apply elem_of_nil in Hk|done].
Qed.

(** The values of a dict are the images of its keys. *)
Lemma total_lookup (m : gmap string Qc) (f : string → Qc) :
  (∀ k, k ∈ keys m → m !! k = Some (f k)) → total m = sum_over f (keys m).
Proof.
  intros Hf. unfold total, sum_over, keys. f_equal.
  rewrite <- list_fmap_compose. apply list_fmap_ext.
  intros i [k v] Hi. cbn.
  assert (Hkv : (k, v) ∈ map_to_list m) by (by eapply list_elem_of_lookup_2).
  assert (Hk : k ∈ (map_to_list m).*1).
  { apply list_elem_of_fmap. by exists (k, v). }
  apply elem_of_map_to_list in Hkv. apply Hf in Hk. congruence.
Qed.

Lemma getitem_Some {V : Type} (m : gmap string V) k v :
  m !! k = Some v → getitem m k = Ok v.
Proof. unfold getitem. by intros ->. Qed.

Lemma getitem_None {V : Type} (m : gmap string V) k :
  m !! k = None → getitem m k = Raise (KeyError k).
Proof. unfold getitem. by intros ->. Qed.

(** ** [transition_model] *)

Lemma transition_step_ok pages ks d probdis key :
  length ks ≠ 0%nat →
  transition_step pages ks d probdis key
  = Ok (<[key := transition_prob (length ks) pages d key]> probdis).
Proof.
  intros Hks. unfold transition_step, transition_prob.
  rewrite (truediv_ok (1 - d)) by by apply of_nat_ne_0.
  destruct (decide (size pages = 0%nat)) as [Hz|Hnz].
  - rewrite (truediv_ok d (of_nat (length ks))) by by apply of_nat_ne_0.
    destruct (decide (key ∈ pages)) as [Hin|?]; [|done].
    apply size_empty_inv in Hz. set_solver.
  - rewrite (truediv_ok d (of_nat (size pages))) by by apply of_nat_ne_0.
    by destruct (decide (key ∈ pages)).
Qed.

Lemma transition_model_ok corpus page pages d :
  corpus !! page = Some pages →
  transition_model corpus page d
  = Ok (assign_all (transition_prob (size corpus) pages d) ∅ (keys corpus)).
Proof.
  intros Hpage. unfold transition_model. rewrite (getitem_Some _ _ _ Hpage).
  cbn. rewrite <- length_keys. apply foldM_pure.
  intros m k _. apply transition_step_ok. by eapply keys_nonempty.
Qed.

Lemma transition_model_unknown corpus page d :
  corpus !! page = None → transition_model corpus page d = Raise (KeyError page).
Proof. intros H. unfold transition_model. by rewrite (getitem_None _ _ H). Qed.

Lemma dom_assign_keys {V : Type} f (m : gmap string V) :
  dom (assign_all f ∅ (keys m)) = dom m.
Proof.
  rewrite dom_assign_all, list_to_set_keys, dom_empty_L.
  apply (right_id_L ∅ (∪)).
Qed.

Lemma lookup_assign_keys {V : Type} f (m : gmap string V) k :
  is_Some (m !! k) → assign_all f ∅ (keys m) !! k = Some (f k).
Proof.
  intros Hk. rewrite lookup_assign_all, decide_True; [done|].
  by apply elem_of_keys.
Qed.

Lemma total_assign_keys {V : Type} f (m : gmap string V) :
  total (assign_all f ∅ (keys m)) = sum_over f (keys m).
Proof.
  rewrite (total_lookup _ f).
  - apply sum_over_perm, keys_perm, dom_assign_keys.
  - intros k Hk. apply lookup_assign_keys.
    by rewrite elem_of_keys, <- elem_of_dom, dom_assign_keys, elem_of_dom in Hk.
Qed.

Lemma length_filter_links {V : Type} (m : gmap string V) (links : gset string) :
  links ⊆ dom m → length (filter (.∈ links) (keys m)) = size links.
Proof.
  intros Hsub. unfold size, set_size. cbn. apply Permutation_length.
  apply NoDup_Permutation.
  - apply NoDup_filter, NoDup_keys.
  - apply NoDup_elements.
  - intros k. rewrite list_elem_of_filter, elem_of_elements, elem_of_keys.
    rewrite <- elem_of_dom. split; [by intros [? _]|].
    intros Hk. split; [done|by apply Hsub].
Qed.

Lemma sum_transition_prob corpus page pages d :
  corpus !! page = Some pages → pages ⊆ dom corpus →
  sum_over (transition_prob (size corpus) pages d) (keys corpus) = 1.
Proof.
  intros Hpage Hsub.
  assert (HN : of_nat (size corpus) ≠ 0).
  { apply of_nat_ne_0. rewrite <- length_keys. by eapply keys_nonempty. }
  unfold transition_prob. rewrite sum_over_plus, sum_over_const, length_keys.
  destruct (decide (size pages = 0%nat)) as [Hz|Hnz].
  - rewrite sum_over_const, length_keys. by field.
  - rewrite (sum_over_indicator (.∈ pages)), length_filter_links by done.
    field. split; [by apply of_nat_ne_0|done].
Qed.

(** ** [iterate_pagerank]: the loops compute the closed forms *)

Lemma value_Some (m : gmap string Qc) k v : m !! k = Some v → value m k = v.
Proof. unfold value. by intros ->. Qed.

Lemma getitem_value (m : gmap string Qc) k :
  is_Some (m !! k) → getitem m k = Ok (value m k).
Proof. intros [v Hv]. by rewrite (getitem_Some _ _ _ Hv), (value_Some _ _ _ Hv). Qed.

Lemma foldl_sum {A : Type} (f : A → Qc) (a : Qc) (l : list A) :
  foldl (λ acc x, acc + f x) a l = a + sum_over f l.
Proof.
  revert a. induction l as [|x l IH]; intros a.
  - by rewrite sum_over_nil, Qcplus_0_r.
  - rewrite sum_over_cons. cbn [foldl]. rewrite IH. ring.
Qed.

Lemma elem_of_parents_of pages page parent :
  parent ∈ parents_of pages page ↔ parent ∈ pages ∧ parent ≠ page.
Proof.
  unfold parents_of.
  rewrite elem_of_elements, elem_of_difference, elem_of_list_to_set.
  by rewrite not_elem_of_singleton.
Qed.

Lemma partial_step_ok corpus previous pages page partial_prob parent :
  is_Some (corpus !! parent) → is_Some (previous !! parent) →
  length pages ≠ 0%nat →
  partial_step corpus previous pages page partial_prob parent
  = Ok (partial_prob + contribution corpus previous (length pages) page parent).
Proof.
  intros [links Hlinks] Hprev Hpages. unfold partial_step, contribution.
  rewrite (getitem_Some _ _ _ Hlinks), Hlinks. cbn.
  destruct (decide (page ∈ links)) as [Hin|Hnotin].
  - rewrite (getitem_value _ _ Hprev). cbn. rewrite truediv_ok; [done|].
    apply of_nat_ne_0. intros Hz%size_empty_inv. set_solver.
  - destruct (decide (size links = 0%nat)); [|by rewrite Qcplus_0_r].
    rewrite truediv_ok; [done|]. by apply of_nat_ne_0.
Qed.

Section pass.
Context (corpus : gmap string (gset string)) (d : Qc).
Context (previous : gmap string Qc).
Hypothesis dom_previous : dom previous = dom corpus.

Lemma partial_prob_ok page :
  page ∈ keys corpus →
  foldM (partial_step corpus previous (keys corpus) page) 0
        (parents_of (keys corpus) page)
  = Ok (sum_over (contribution corpus previous (size corpus) page)
                 (parents_of (keys corpus) page)).
Proof.
  intros Hpage.
  rewrite (foldM_pure _ (λ acc parent,
    acc + contribution corpus previous (size corpus) page parent)).
  { by rewrite foldl_sum, Qcplus_0_l. }
  intros acc parent [Hparent _]%elem_of_parents_of.
  rewrite <- length_keys. apply elem_of_keys in Hparent as Hsome.
  apply partial_step_ok; [done| |by eapply keys_nonempty].
  by rewrite <- elem_of_dom, dom_previous, elem_of_dom.
Qed.

Lemma update_page_ok st page :
  page ∈ keys corpus →
  update_page corpus d (keys corpus) previous st page
  = Ok (<[page := new_rank corpus d previous page]> st.1,
        st.2 ++ [Qcabs (value previous page - new_rank corpus d previous page)]).
Proof.
  intros Hpage. unfold update_page. rewrite partial_prob_ok by done. cbn.
  apply elem_of_keys in Hpage as Hsome.
  rewrite truediv_ok
    by (apply of_nat_ne_0; by eapply keys_nonempty).
  cbn. rewrite (getitem_value previous page)
    by by rewrite <- elem_of_dom, dom_previous, elem_of_dom.
  cbn. rewrite (getitem_Some _ _ _ (lookup_insert_eq _ _ _)). cbn.
  unfold new_rank. by rewrite length_keys.
Qed.

Lemma pass_ok :
  pass corpus d (keys corpus) previous
  = Ok (next corpus d previous, no_change (differences corpus d previous)).
Proof.
  unfold pass.
  rewrite (foldM_pure _ (λ st page,
    (<[page := new_rank corpus d previous page]> st.1,
     st.2 ++ [Qcabs (value previous page - new_rank corpus d previous page)])))
    by (intros; by apply update_page_ok).
  cbn. unfold next, differences, assign_all.
  assert (Hfold : ∀ l m ds,
    foldl (λ (st : gmap string Qc * list Qc) page,
      (<[page := new_rank corpus d previous page]> st.1,
       st.2 ++ [Qcabs (value previous page - new_rank corpus d previous page)]))
      (m, ds) l
    = (foldl (λ m k, <[k := new_rank corpus d previous k]> m) m l,
       ds ++ ((λ page,
         Qcabs (value previous page - new_rank corpus d previous page)) <$> l))).
  { induction l as [|x l IH]; intros m ds; cbn; [by rewrite app_nil_r|].
    by rewrite IH, <- app_assoc. }
  by rewrite Hfold.
Qed.

Lemma dom_next : dom (next corpus d previous) = dom corpus.
Proof.
  unfold next. rewrite dom_assign_all, list_to_set_keys, dom_previous.
  apply (idemp_L (∪)).
Qed.

Lemma value_next page :
  page ∈ dom corpus →
  value (next corpus d previous) page = new_rank corpus d previous page.
Proof.
  intros Hpage. apply value_Some. unfold next.
  rewrite lookup_assign_all, decide_True; [done|].
  by rewrite elem_of_keys, <- elem_of_dom.
Qed.

Lemma no_change_settled :
  no_change (differences corpus d previous) = true ↔ settled corpus d previous.
Proof.
  unfold no_change, differences, settled.
  rewrite negb_true_iff, <- not_true_iff_false, existsb_exists.
  split.
  - intros Hno page Hpage. rewrite value_next by done.
    apply Qcle_ngt. intros Hlt. apply Hno. eexists. split.
    + apply list_elem_of_In, list_elem_of_fmap. exists page. split; [done|].
      by rewrite elem_of_keys, <- elem_of_dom.
    + by apply bool_decide_eq_true.
  - intros Hall (x & Hx & Hlt). apply bool_decide_eq_true in Hlt.
    apply list_elem_of_In, list_elem_of_fmap in Hx as (page & -> & Hpage).
    rewrite elem_of_keys, <- elem_of_dom in Hpage.
    specialize (Hall page Hpage). rewrite value_next in Hall by done.
    by apply Qcle_ngt in Hall.
Qed.
End pass.

(** ** A pass is a contraction *)

Lemma sum_over_minus {A : Type} (f g : A → Qc) (l : list A) :
  sum_over f l - sum_over g l = sum_over (λ x, f x - g x) l.
Proof.
  induction l as [|x l IH]; [by apply Qc_is_canon|].
  rewrite !sum_over_cons, <- IH. ring.
Qed.

Lemma sum_over_filter {A : Type} (P : A → Prop) `{∀ x, Decision (P x)}
    (f : A → Qc) (l : list A) :
  sum_over f (filter P l) = sum_over (λ x, if decide (P x) then f x else 0) l.
Proof.
  induction l as [|x l IH]; [done|].
  rewrite filter_cons, (sum_over_cons _ x l), <- IH.
  case_decide; [done|by rewrite Qcplus_0_l].
Qed.

Lemma parents_of_perm pages page :
  NoDup pages → parents_of pages page ≡ₚ filter (.≠ page) pages.
Proof.
  intros Hnd. apply NoDup_Permutation.
  - apply NoDup_elements.
  - by apply NoDup_filter.
  - intros parent. by rewrite elem_of_parents_of, list_elem_of_filter, (comm and).
Qed.

Lemma Qcabs_nonneg_id (x : Qc) : 0 ≤ x → Qcabs x = x.
Proof. apply Qcabs_pos. Qed.

Lemma Qc_inv_nat_nonneg (n : nat) : 0 ≤ 1 / of_nat n.
Proof.
  destruct n as [|n]; [by rewrite of_nat_0|].
  apply Qclt_le_weak. unfold Qcdiv. rewrite Qcmult_1_l.
  apply Qcinv_pos, of_nat_pos. lia.
Qed.

Lemma Qc_ratio_le_1 (n m : nat) : (n ≤ m)%nat → of_nat n * (1 / of_nat m) ≤ 1.
Proof.
  intros Hle. destruct m as [|m].
  { assert (n = 0%nat) as -> by lia. by rewrite of_nat_0, Qcmult_0_l. }
  assert (Hm : of_nat (S m) ≠ 0) by by apply of_nat_ne_0.
  trans (of_nat (S m) * (1 / of_nat (S m))).
  - apply Qcmult_le_compat_r; [by apply of_nat_le|apply Qc_inv_nat_nonneg].
  - apply reflexive_eq. by field.
Qed.

Lemma weight_nonneg corpus parent page : 0 ≤ weight corpus parent page.
Proof.
  unfold weight. destruct (corpus !! parent) as [links|]; [|done].
  case_decide; [apply Qc_inv_nat_nonneg|done].
Qed.

Lemma contribution_diff corpus x y n page parent :
  contribution corpus x n page parent - contribution corpus y n page parent
  = weight corpus parent page * (value x parent - value y parent).
Proof.
  unfold contribution, weight. destruct (corpus !! parent) as [links|]; [|ring].
  repeat case_decide; unfold Qcdiv; ring.
Qed.

(** Each parent hands out at most its whole rank. *)
Lemma weight_column corpus parent :
  sum_over (λ page, if decide (parent ≠ page) then weight corpus parent page
                    else 0) (keys corpus) ≤ 1.
Proof.
  unfold weight. destruct (corpus !! parent) as [links|] eqn:Hlinks.
  - rewrite (sum_over_ext _ (λ page,
      if decide (parent ≠ page ∧ page ∈ links)
      then 1 / of_nat (size links) else 0)).
    2:{ intros page _. repeat case_decide; first [done|tauto]. }
    rewrite (sum_over_indicator (λ page, parent ≠ page ∧ page ∈ links)).
    apply Qc_ratio_le_1. unfold size at 1, set_size. cbn.
    apply submseteq_length, NoDup_submseteq.
    + apply NoDup_filter, NoDup_keys.
    + intros page [[_ Hin] _]%list_elem_of_filter. by apply elem_of_elements.
  - rewrite (sum_over_ext _ (λ _, 0)) by (intros; by case_decide).
    rewrite sum_over_const, Qcmult_0_r. done.
Qed.

Section contraction.
Context (corpus : gmap string (gset string)) (d : Qc).
Hypothesis d_nonneg : 0 ≤ d.

Lemma new_rank_diff x y page :
  new_rank corpus d x page - new_rank corpus d y page
  = d * sum_over (λ parent,
          if decide (parent ≠ page)
          then weight corpus parent page * (value x parent - value y parent)
          else 0) (keys corpus).
Proof.
  unfold new_rank.
  rewrite !(sum_over_perm _ _ _ (parents_of_perm _ page (NoDup_keys corpus))).
  rewrite <- sum_over_filter.
  rewrite <- (sum_over_ext _ _ _ (λ parent _,
    contribution_diff corpus x y (size corpus) page parent)).
  rewrite <- sum_over_minus. ring.
Qed.

Lemma new_rank_diff_abs x y page :
  Qcabs (new_rank corpus d x page - new_rank corpus d y page)
  ≤ d * sum_over (λ parent,
          Qcabs (value x parent - value y parent)
          * (if decide (parent ≠ page) then weight corpus parent page else 0))
        (keys corpus).
Proof.
  rewrite new_rank_diff, Qcabs_Qcmult, (Qcabs_nonneg_id d) by done.
  rewrite !(Qcmult_comm d). apply Qcmult_le_compat_r; [|done].
  etrans; [apply sum_over_abs|]. apply sum_over_le. intros parent _.
  case_decide.
  - rewrite Qcabs_Qcmult, (Qcabs_nonneg_id (weight _ _ _))
      by apply weight_nonneg.
    apply reflexive_eq. ring.
  - rewrite Qcmult_0_r. done.
Qed.

Lemma next_contraction x y :
  dom x = dom corpus → dom y = dom corpus →
  dist1 corpus (next corpus d x) (next corpus d y) ≤ d * dist1 corpus x y.
Proof.
  intros Hx Hy. unfold dist1.
  trans (sum_over (λ page, d * sum_over (λ parent,
           Qcabs (value x parent - value y parent)
           * (if decide (parent ≠ page) then weight corpus parent page else 0))
         (keys corpus)) (keys corpus)).
  { apply sum_over_le. intros page Hpage.
    rewrite elem_of_keys, <- elem_of_dom in Hpage.
    rewrite !value_next by done. apply new_rank_diff_abs. }
  rewrite sum_over_scale, !(Qcmult_comm d).
  apply Qcmult_le_compat_r; [|done].
  rewrite sum_over_exchange. apply sum_over_le. intros parent _.
  rewrite sum_over_scale.
  pose proof (weight_column corpus parent) as Hcol.
  pose proof (Qcabs_nonneg (value x parent - value y parent)) as Habs.
  set (a := Qcabs (value x parent - value y parent)) in *.
  rewrite <- (Qcmult_1_r a) at 2. rewrite !(Qcmult_comm a).
  by apply Qcmult_le_compat_r.
Qed.
End contraction.

(** ** Powers of the damping factor vanish *)

Lemma Qcpower_nonneg (d : Qc) (k : nat) : 0 ≤ d → 0 ≤ d ^ k.
Proof.
  intros Hd. induction k as [|k IH]; [done|].
  cbn [Qcpower]. set (p := d ^ k) in *. clearbody p. qc_nra.
Qed.

(** Bernoulli's inequality, in the form that needs no division. *)
Lemma Qcpower_bernoulli (d : Qc) (k : nat) :
  0 ≤ d → d ≤ 1 → d ^ k * (1 + of_nat k * (1 - d)) ≤ 1.
Proof.
  intros Hd0 Hd1. induction k as [|k IH].
  { rewrite of_nat_0. apply reflexive_eq. cbn [Qcpower]. ring. }
  rewrite of_nat_S. cbn [Qcpower].
  pose proof (Qcpower_nonneg d k Hd0) as Hpow.
  pose proof (of_nat_nonneg k) as Hk.
  set (p := d ^ k) in *. set (n := of_nat k) in *.
  trans (p * (1 + n * (1 - d))); [|done].
  replace (d * p * (1 + (n + 1) * (1 - d)))
    with (p * (d * (1 + (n + 1) * (1 - d)))) by ring.
  rewrite !(Qcmult_comm p). apply Qcmult_le_compat_r; [|done].
  clear IH Hpow p.
  assert (Hsq : 0 ≤ (1 - d) * (1 - d)) by qc_nra.
  assert (Hnsq : 0 ≤ n * ((1 - d) * (1 - d))).
  { set (s := (1 - d) * (1 - d)) in *. clearbody s n. qc_nra. }
  clearbody n. qc_nra.
Qed.

Lemma Qc_archimedean (q : Qc) : ∃ k : nat, q ≤ of_nat k.
Proof.
  exists (Z.to_nat (Qnum q)). unfold of_nat, Qc_of_Z. qc2q.
  destruct q as [[n m] Hq]. cbn. unfold Qle. cbn. nia.
Qed.

Lemma Qcpower_vanishes (d c eps : Qc) :
  0 ≤ d → d < 1 → 0 ≤ c → 0 < eps → ∃ k : nat, d ^ k * c ≤ eps.
Proof.
  intros Hd0 Hd1 Hc Heps.
  destruct (Qc_archimedean (c / (eps * (1 - d)))) as [k Hk].
  exists k.
  pose proof (Qcpower_bernoulli d k Hd0 (Qclt_le_weak _ _ Hd1)) as Hb.
  pose proof (Qcpower_nonneg d k Hd0) as Hpow.
  assert (Hpos : 0 < eps * (1 - d)) by qc_nra.
  assert (Hc' : c ≤ eps * (1 - d) * of_nat k).
  { replace c with (eps * (1 - d) * (c / (eps * (1 - d)))).
    - rewrite !(Qcmult_comm (eps * (1 - d))).
      apply Qcmult_le_compat_r; [done|by apply Qclt_le_weak].
    - field. clear Hk. split; intros E; qc_nra. }
  set (p := d ^ k) in *. set (n := of_nat k) in *.
  clearbody p n. clear Hk Hpos.
  trans (eps * (p * (1 + n * (1 - d)))).
  - assert (p * c ≤ p * (eps * (1 + n * (1 - d)))).
    { rewrite !(Qcmult_comm p). apply Qcmult_le_compat_r; [|done].
      qc_nra. }
    etrans; [done|]. apply reflexive_eq. ring.
  - rewrite <- (Qcmult_1_r eps) at 2. rewrite !(Qcmult_comm eps).
    apply Qcmult_le_compat_r; [done|by apply Qclt_le_weak].
Qed.

(** ** [iterate_pagerank] terminates *)

Lemma dom_uniform corpus : dom (uniform corpus) = dom corpus.
Proof. apply dom_assign_keys. Qed.

Lemma initial_dis_ok corpus : initial_dis (keys corpus) = Ok (uniform corpus).
Proof.
  unfold initial_dis, uniform. rewrite <- length_keys. apply foldM_pure.
  intros m k Hk. rewrite truediv_ok; [done|].
  apply of_nat_ne_0. by destruct (keys corpus); [apply elem_of_nil in Hk|].
Qed.

Lemma ranks_S corpus d n :
  ranks corpus d (S n) = next corpus d (ranks corpus d n).
Proof. done. Qed.

Lemma dom_ranks corpus d n : dom (ranks corpus d n) = dom corpus.
Proof.
  induction n as [|n IH]; [apply dom_uniform|]. cbn. by apply dom_next.
Qed.

Lemma iterate_loop_S fuel corpus d x :
  dom x = dom corpus →
  iterate_loop (S fuel) corpus d (keys corpus) x
  = if no_change (differences corpus d x) then Some (Ok (next corpus d x))
    else iterate_loop fuel corpus d (keys corpus) (next corpus d x).
Proof. intros Hx. cbn. by rewrite pass_ok. Qed.

#[global] Instance settled_dec corpus d x : Decision (settled corpus d x).
Proof.
  destruct (no_change (differences corpus d x)) eqn:E.
  - left. by apply no_change_settled.
  - right. rewrite <- no_change_settled. congruence.
Defined.

Lemma dist1_settled corpus d x :
  dist1 corpus x (next corpus d x) ≤ threshold → settled corpus d x.
Proof.
  intros Hdist page Hpage. etrans; [|done]. unfold dist1.
  apply (sum_over_elem_le
    (λ page, Qcabs (value x page - value (next corpus d x) page))).
  - intros. apply Qcabs_nonneg.
  - by rewrite elem_of_keys, <- elem_of_dom.
Qed.

Lemma iterate_loop_settled fuel corpus d x :
  dom x = dom corpus → settled corpus d x →
  iterate_loop (S fuel) corpus d (keys corpus) x = Some (Ok (next corpus d x)).
Proof.
  intros Hx Hs. rewrite iterate_loop_S by done.
  apply no_change_settled in Hs. by rewrite Hs.
Qed.

Lemma iterate_loop_unsettled fuel corpus d x :
  dom x = dom corpus → ¬ settled corpus d x →
  iterate_loop (S fuel) corpus d (keys corpus) x
  = iterate_loop fuel corpus d (keys corpus) (next corpus d x).
Proof.
  intros Hx Hs. rewrite iterate_loop_S by done.
  destruct (no_change _) eqn:E; [|done].
  apply no_change_settled in E; done.
Qed.

(** The loop started on the ranks after [j] passes stops at the first pass
    that changes no value by more than the threshold. *)
Lemma iterate_loop_terminates corpus d n j :
  0 ≤ d → d < 1 →
  d ^ n * dist1 corpus (ranks corpus d j) (ranks corpus d (S j)) ≤ threshold →
  ∃ k, (j ≤ k)%nat
    ∧ (∀ i, (j ≤ i < k)%nat → ¬ settled corpus d (ranks corpus d i))
    ∧ settled corpus d (ranks corpus d k)
    ∧ (∀ fuel, (k - j < fuel)%nat →
         iterate_loop fuel corpus d (keys corpus) (ranks corpus d j)
         = Some (Ok (ranks corpus d (S k))))
    ∧ (∀ fuel, (fuel ≤ k - j)%nat →
         iterate_loop fuel corpus d (keys corpus) (ranks corpus d j) = None).
Proof.
  intros Hd0 Hd1. revert j. induction n as [|n IH]; intros j Hsmall.
  - exists j. cbn [Qcpower] in Hsmall. rewrite Qcmult_1_l, ranks_S in Hsmall.
    apply dist1_settled in Hsmall.
    split_and!; [done|lia|done| |].
    + intros [|fuel] ?; [lia|].
      apply iterate_loop_settled; [apply dom_ranks|done].
    + intros fuel ?. by assert (fuel = 0%nat) as -> by lia.
  - destruct (decide (settled corpus d (ranks corpus d j))) as [Hs|Hs].
    { exists j. split_and!; [done|lia|done| |].
      - intros [|fuel] ?; [lia|].
        apply iterate_loop_settled; [apply dom_ranks|done].
      - intros fuel ?. by assert (fuel = 0%nat) as -> by lia. }
    destruct (IH (S j)) as (k & Hjk & Hbefore & Hk & Hfuel & Hnone).
    { etrans; [|exact Hsmall]. cbn [Qcpower].
      pose proof (next_contraction corpus d Hd0 (ranks corpus d j)
        (ranks corpus d (S j)) (dom_ranks _ _ _) (dom_ranks _ _ _)) as Hc.
      pose proof (Qcpower_nonneg d n Hd0) as Hpow.
      rewrite <- !ranks_S in Hc.
      rewrite (Qcmult_comm d), <- Qcmult_assoc, !(Qcmult_comm (d ^ n)).
      by apply Qcmult_le_compat_r. }
    exists k. split_and!; [lia| |done| |].
    + intros i Hi. destruct (decide (i = j)) as [->|?]; [done|].
      apply Hbefore. lia.
    + intros [|fuel] ?; [lia|].
      rewrite iterate_loop_unsettled; [|apply dom_ranks|done].
      apply Hfuel. lia.
    + intros [|fuel] ?; [done|].
      rewrite iterate_loop_unsettled; [|apply dom_ranks|done].
      apply Hnone. lia.
Qed.

Lemma dist1_nonneg corpus x y : 0 ≤ dist1 corpus x y.
Proof. apply sum_over_nonneg. intros. apply Qcabs_nonneg. Qed.

Lemma iterate_pagerank_stops corpus d :
  0 ≤ d → d < 1 →
  ∃ k, (∀ i, (i < k)%nat → ¬ settled corpus d (ranks corpus d i))
    ∧ settled corpus d (ranks corpus d k)
    ∧ (∀ fuel, (k < fuel)%nat →
         iterate_pagerank fuel corpus d = Some (Ok (ranks corpus d (S k))))
    ∧ (∀ fuel, (fuel ≤ k)%nat → iterate_pagerank fuel corpus d = None).
Proof.
  intros Hd0 Hd1.
  destruct (Qcpower_vanishes d
    (dist1 corpus (ranks corpus d 0) (ranks corpus d 1)) threshold)
    as [n Hn]; [done|done|apply dist1_nonneg|done|].
  destruct (iterate_loop_terminates corpus d n 0 Hd0 Hd1 Hn)
    as (k & _ & Hbefore & Hk & Hfuel & Hnone).
  exists k. unfold iterate_pagerank. rewrite initial_dis_ok.
  split_and!; [|done| |].
  - intros i Hi. apply Hbefore. lia.
  - intros fuel Hlt. apply Hfuel. lia.
  - intros fuel Hle. apply Hnone. lia.
Qed.

(** ** The [random] module *)

Lemma list_getitem_Some {A : Type} (seq : list A) i x :
  seq !! i = Some x → list_getitem seq i = Ok x.
Proof. unfold list_getitem. by intros ->. Qed.

Lemma length_accumulate_from acc weights :
  length (accumulate_from acc weights) = length weights.
Proof.
  revert acc. induction weights as [|w weights IH]; intros acc; [done|].
  cbn. by rewrite IH.
Qed.

Lemma length_accumulate weights :
  length (accumulate weights) = length weights.
Proof.
  destruct weights as [|w weights]; [done|].
  cbn. by rewrite length_accumulate_from.
Qed.

Lemma last_accumulate_from acc w weights :
  last (accumulate_from acc (w :: weights))
  = Some (acc + sum_list (w :: weights)).
Proof.
  revert acc w. induction weights as [|w' weights IH]; intros acc w.
  - unfold sum_list. cbn. f_equal. ring.
  - change (accumulate_from acc (w :: w' :: weights))
      with ((acc + w) :: accumulate_from (acc + w) (w' :: weights)).
    rewrite last_cons, IH. unfold sum_list. cbn [foldr]. f_equal. ring.
Qed.

Lemma last_accumulate w weights :
  last (accumulate (w :: weights)) = Some (sum_list (w :: weights)).
Proof.
  destruct weights as [|w' weights].
  - unfold sum_list. cbn. f_equal. ring.
  - change (accumulate (w :: w' :: weights))
      with (w :: accumulate_from w (w' :: weights)).
    by rewrite last_cons, last_accumulate_from.
Qed.

(** The binary search answers an index between its bounds. *)
Lemma bisect_loop_ok rounds a x lo hi :
  (lo ≤ hi)%nat → (hi ≤ length a)%nat →
  ∃ i, bisect_loop rounds a x lo hi = Ok i ∧ (lo ≤ i ≤ hi)%nat.
Proof.
  revert lo hi. induction rounds as [|rounds IH]; intros lo hi Hlo Hhi.
  { exists lo. split; [done|lia]. }
  cbn [bisect_loop]. destruct (decide (lo < hi)%nat) as [Hlt|Hge].
  2:{ exists lo. split; [done|lia]. }
  assert (Hmid : (lo ≤ (lo + hi) / 2 < hi)%nat).
  { split.
    - apply Nat.div_le_lower_bound; lia.
    - apply Nat.Div0.div_lt_upper_bound; lia. }
  destruct (lookup_lt_is_Some_2 a ((lo + hi) / 2)) as [a_mid Ha]; [lia|].
  rewrite (list_getitem_Some _ _ _ Ha). cbn [mbind outcome_bind].
  destruct (decide (x < a_mid)).
  - destruct (IH lo ((lo + hi) / 2)%nat) as (i & -> & Hi); [lia..|].
    exists i. split; [done|lia].
  - destruct (IH ((lo + hi) / 2 + 1)%nat hi) as (i & -> & Hi); [lia..|].
    exists i. split; [done|lia].
Qed.

Section random.
Context {G : Type} `{RandomSource G}.

Lemma choice_ok {A : Type} (seq : list A) (g : G) :
  seq ≠ [] → ∃ x g', choice seq g = Ok (x, g') ∧ x ∈ seq.
Proof.
  intros Hseq. unfold choice.
  rewrite decide_False by (by destruct seq).
  pose proof (randbelow_lt (length seq) g) as Hlt.
  destruct (randbelow (length seq) g) as [i g'].
  destruct (lookup_lt_is_Some_2 seq i) as [x Hx].
  { apply Hlt. destruct seq; [done|cbn; lia]. }
  exists x, g'. rewrite (list_getitem_Some _ _ _ Hx).
  split; [done|]. by eapply list_elem_of_lookup_2.
Qed.

Lemma choices_ok {A : Type} (population : list A) (weights : list Qc) (g : G) :
  population ≠ [] → length weights = length population →
  0 < sum_list weights →
  ∃ x g', choices population weights g = Ok (x, g') ∧ x ∈ population.
Proof.
  intros Hpop Hlen Hpos. unfold choices.
  rewrite decide_False by (rewrite length_accumulate; lia).
  destruct weights as [|w weights]; [by destruct population|].
  rewrite last_accumulate. cbn [mbind outcome_bind].
  rewrite decide_False by (by apply Qclt_not_le).
  destruct (random g) as [r g'].
  destruct (bisect_loop_ok (length population - 1 - 0)
    (accumulate (w :: weights)) (r * sum_list (w :: weights)) 0
    (length population - 1)) as (i & Hi & Hrange).
  { lia. }
  { rewrite length_accumulate. lia. }
  unfold bisect. rewrite Hi. cbn [mbind outcome_bind].
  destruct (lookup_lt_is_Some_2 population i) as [x Hx].
  { destruct population; [done|cbn in *; lia]. }
  exists x, g'. rewrite (list_getitem_Some _ _ _ Hx).
  split; [done|]. by eapply list_elem_of_lookup_2.
Qed.
End random.

(** ** [sample_pagerank] *)

Lemma foldl_snoc {A B : Type} (f : A → B) (l : list A) (acc : list B) :
  foldl (λ probs key, probs ++ [f key]) acc l = acc ++ (f <$> l).
Proof.
  revert acc. induction l as [|x l IH]; intros acc; cbn.
  - by rewrite app_nil_r.
  - by rewrite IH, <- app_assoc.
Qed.

Lemma weights_of_ok (prob_dis : gmap string Qc) :
  weights_of prob_dis = Ok (value prob_dis <$> keys prob_dis).
Proof.
  unfold weights_of.
  rewrite (foldM_pure _ (λ probs key, probs ++ [value prob_dis key])).
  - by rewrite foldl_snoc.
  - intros probs key Hkey%elem_of_keys. by rewrite getitem_value.
Qed.

Lemma sum_list_values (m : gmap string Qc) :
  sum_list (value m <$> keys m) = total m.
Proof.
  symmetry. apply (total_lookup m (value m)).
  intros k [v Hv]%elem_of_keys. by rewrite (value_Some _ _ _ Hv).
Qed.

Lemma sum_over_pos {A : Type} (f : A → Qc) (l : list A) :
  l ≠ [] → (∀ x, x ∈ l → 0 < f x) → 0 < sum_over f l.
Proof.
  intros Hl Hf. destruct l as [|x l]; [done|]. rewrite sum_over_cons.
  apply Qcplus_pos_nonneg; [apply Hf; left|].
  apply sum_over_nonneg. intros y Hy. apply Qclt_le_weak, Hf. by right.
Qed.

Lemma Qc_div_nat_pos (x : Qc) (n : nat) :
  0 < x → n ≠ 0%nat → 0 < x / of_nat n.
Proof.
  intros Hx Hn. apply Qcmult_pos_pos; [done|].
  apply Qcinv_pos, of_nat_pos. lia.
Qed.

Lemma transition_prob_pos n pages d key :
  0 < d → d < 1 → n ≠ 0%nat → 0 < transition_prob n pages d key.
Proof.
  intros Hd0 Hd1 Hn. unfold transition_prob.
  apply Qcplus_pos_nonneg; [apply Qc_div_nat_pos; [qc_lra|done]|].
  repeat case_decide; try done.
  - by apply Qclt_le_weak, Qc_div_nat_pos.
  - by apply Qclt_le_weak, Qc_div_nat_pos.
Qed.

Lemma keys_nil {V : Type} (m : gmap string V) : keys m = [] ↔ m = ∅.
Proof.
  unfold keys. split.
  - intros Hnil%fmap_nil_inv. by apply map_to_list_empty_iff.
  - intros ->. by rewrite map_to_list_empty.
Qed.

Lemma count_cons key x raw :
  count key (x :: raw)
  = ((if decide (x = key) then 1 else 0) + count key raw)%nat.
Proof. unfold count. rewrite filter_cons. by case_decide. Qed.

Lemma count_app key raw1 raw2 :
  count key (raw1 ++ raw2) = (count key raw1 + count key raw2)%nat.
Proof. unfold count. by rewrite filter_app, length_app. Qed.

Lemma count_le key raw : (count key raw ≤ length raw)%nat.
Proof. apply length_filter. Qed.

Lemma of_nat_plus (n m : nat) : of_nat (n + m) = of_nat n + of_nat m.
Proof.
  induction n as [|n IH]; cbn [Nat.add].
  - by rewrite of_nat_0, Qcplus_0_l.
  - rewrite !of_nat_S, IH. ring.
Qed.

(** The visits to the pages of [ks] add up to the length of the walk. *)
Lemma sum_count (ks raw : list string) :
  NoDup ks → (∀ page, page ∈ raw → page ∈ ks) →
  sum_over (λ key, of_nat (count key raw)) ks = of_nat (length raw).
Proof.
  intros Hnd. induction raw as [|x raw IH]; intros Hraw.
  - rewrite (sum_over_ext _ (λ _, 0)) by (intros; apply of_nat_0).
    rewrite sum_over_const, Qcmult_0_r. symmetry. apply of_nat_0.
  - rewrite (sum_over_ext _ (λ key,
      (if decide (x = key) then 1 else 0) + of_nat (count key raw))).
    2:{ intros key _. rewrite count_cons, of_nat_plus. f_equal.
        case_decide; [by apply Qc_is_canon|apply of_nat_0]. }
    rewrite sum_over_plus, IH by (intros; apply Hraw; by right).
    rewrite (sum_over_indicator (λ key, x = key)).
    assert (Hone : length (filter (λ key, x = key) ks) = 1%nat).
    { assert (Hx : x ∈ ks) by (apply Hraw; left).
      change 1%nat with (length [x]). apply Permutation_length.
      apply NoDup_Permutation;
        [by apply NoDup_filter|apply NoDup_singleton|].
      intros key. rewrite list_elem_of_filter, list_elem_of_singleton.
      split; [by intros [<- _]|by intros ->]. }
    rewrite Hone. cbn [length]. rewrite !of_nat_S, of_nat_0. ring.
Qed.

Section sampling.
Context {G : Type} `{RandomSource G}.
Context (corpus : gmap string (gset string)) (d : Qc).
Hypothesis d_pos : 0 < d.
Hypothesis d_lt_1 : d < 1.

(** One step of the walk draws a page of the corpus. *)
Lemma walk_step_ok cur_page (g : G) :
  cur_page ∈ dom corpus →
  ∃ prob_dis probs cur_page' g',
    transition_model corpus cur_page d = Ok prob_dis
    ∧ weights_of prob_dis = Ok probs
    ∧ choices (keys prob_dis) probs g = Ok (cur_page', g')
    ∧ cur_page' ∈ dom corpus.
Proof.
  intros [pages Hpages]%elem_of_dom.
  set (prob_dis := assign_all (transition_prob (size corpus) pages d) ∅
                              (keys corpus)).
  assert (Hdom : dom prob_dis = dom corpus) by apply dom_assign_keys.
  assert (Hne : keys prob_dis ≠ []).
  { rewrite keys_nil. intros E. rewrite E, dom_empty_L in Hdom.
    assert (cur_page ∈ dom corpus) by (apply elem_of_dom; eauto).
    set_solver. }
  destruct (choices_ok (keys prob_dis) (value prob_dis <$> keys prob_dis) g)
    as (cur_page' & g' & Hchoice & Hin); [done|by rewrite length_fmap| |].
  { rewrite sum_list_values. unfold prob_dis. rewrite total_assign_keys.
    apply sum_over_pos.
    - rewrite keys_nil. intros E. by rewrite E in Hpages.
    - intros key _. apply transition_prob_pos; [done..|].
      rewrite <- length_keys. eapply keys_nonempty; eauto. }
  exists prob_dis, (value prob_dis <$> keys prob_dis), cur_page', g'.
  split_and!; [by apply transition_model_ok|apply weights_of_ok|done|].
  by rewrite elem_of_keys, <- elem_of_dom, Hdom in Hin.
Qed.

Lemma walk_ok steps cur_page pageranks_raw (g : G) :
  cur_page ∈ dom corpus →
  (∀ page, page ∈ pageranks_raw → page ∈ dom corpus) →
  ∃ raw g', walk steps corpus d cur_page pageranks_raw g = Ok (raw, g')
    ∧ length raw = (length pageranks_raw + steps)%nat
    ∧ (∀ page, page ∈ raw → page ∈ dom corpus).
Proof.
  revert cur_page pageranks_raw g.
  induction steps as [|steps IH]; intros cur_page pageranks_raw g Hcur Hraw.
  { exists pageranks_raw, g. split_and!; [done|lia|done]. }
  destruct (walk_step_ok cur_page g Hcur)
    as (prob_dis & probs & cur_page' & g' & Htm & Hw & Hch & Hcur').
  destruct (IH cur_page' (pageranks_raw ++ [cur_page']) g')
    as (raw & g'' & Hwalk & Hlen & Hall); [done| |].
  { intros page [?|Hp%list_elem_of_singleton]%elem_of_app; [auto|by subst]. }
  exists raw, g''. cbn [walk]. rewrite Htm. cbn [mbind outcome_bind].
  rewrite Hw. cbn [mbind outcome_bind]. rewrite Hch. cbn [mbind outcome_bind].
  split_and!; [done| |done].
  rewrite Hlen, length_app. cbn. lia.
Qed.

Lemma sample_visits_ok n (g : G) :
  corpus ≠ ∅ → (1 ≤ n)%nat →
  ∃ raw g', sample_visits corpus d n g = Ok (raw, g')
    ∧ length raw = n
    ∧ (∀ page, page ∈ raw → page ∈ dom corpus).
Proof.
  intros Hcorpus Hn. unfold sample_visits.
  destruct (choice_ok (keys corpus) g) as (cur_page & g' & -> & Hcur).
  { by rewrite keys_nil. }
  rewrite elem_of_keys, <- elem_of_dom in Hcur.
  destruct (walk_ok (n - 1) cur_page [cur_page] g')
    as (raw & g'' & Hwalk & Hlen & Hall); [done| |].
  { intros page Hp%list_elem_of_singleton. by subst. }
  exists raw, g''. cbn [mbind outcome_bind]. split_and!; [done| |done].
  rewrite Hlen. cbn. lia.
Qed.
End sampling.

Section estimate.
Context {G : Type} `{RandomSource G}.

(** Lines 101-104: the visit counts divided by [n]. *)
Lemma sample_pagerank_ok (corpus : gmap string (gset string)) d n
    (g g' : G) raw :
  n ≠ 0%nat → sample_visits corpus d n g = Ok (raw, g') →
  sample_pagerank corpus d n g
  = Ok (assign_all (λ key, of_nat (count key raw) / of_nat n) ∅ (keys corpus),
        g').
Proof.
  intros Hn Hvisits. unfold sample_pagerank. rewrite Hvisits.
  cbn [mbind outcome_bind].
  rewrite (foldM_pure _ (λ pageranks key,
    <[key := of_nat (count key raw) / of_nat n]> pageranks)); [done|].
  intros pageranks key _. rewrite truediv_ok; [done|]. by apply of_nat_ne_0.
Qed.

Lemma total_sample (corpus : gmap string (gset string)) n raw :
  n ≠ 0%nat → length raw = n → (∀ page, page ∈ raw → page ∈ dom corpus) →
  total (assign_all (λ key, of_nat (count key raw) / of_nat n) ∅ (keys corpus))
  = 1.
Proof.
  intros Hn Hlen Hraw. rewrite total_assign_keys.
  rewrite (sum_over_ext _ (λ key, / of_nat n * of_nat (count key raw)))
    by (intros; unfold Qcdiv; ring).
  rewrite sum_over_scale, sum_count, Hlen.
  - field. by apply of_nat_ne_0.
  - apply NoDup_keys.
  - intros page Hpage. rewrite elem_of_keys, <- elem_of_dom. auto.
Qed.
End estimate.

(** ** Without dangling pages the ranks sum to 1

    The defect behind C1, C2 and C3 is confined to dangling pages: on a corpus
    of the data model in which every page has a link, every pass keeps the sum
    of the ranks at 1. *)

Lemma assign_all_keys_base {V : Type} f (c : gmap string V) m :
  dom m = dom c → assign_all f m (keys c) = assign_all f ∅ (keys c).
Proof.
  intros Hdom. apply map_eq. intros k. rewrite !lookup_assign_all.
  destruct (decide (k ∈ keys c)) as [|Hk]; [done|].
  rewrite lookup_empty. apply not_elem_of_dom.
  by rewrite Hdom, elem_of_dom, <- elem_of_keys.
Qed.


Section no_dangling.
Context (corpus : gmap string (gset string)) (d : Qc).
Hypothesis corpus_closed : closed corpus.
Hypothesis corpus_no_self_link : no_self_link corpus.
Hypothesis corpus_no_dangling : no_dangling corpus.




End no_dangling.

(** * The claims of the specification *)

(** Closed goals are decided by evaluation. *)
Ltac by_evaluation := apply (bool_decide_unpack _); vm_compute; exact I.

(** ** TransitionModel *)

(** C4 (as amended): [transition_model] has one error path, the lookup
    [corpus[page]] of line 63, taken before the loop exactly when [page] is
    not a key of the corpus; for a key of the corpus it returns a
    distribution whatever the damping factor is. *)
Theorem transition_model_error_path (corpus : gmap string (gset string))
    (page : string) (d : Qc) :
  transition_model corpus page d
  = match corpus !! page with
    | None => Raise (KeyError page)
    | Some pages =>
        Ok (assign_all (transition_prob (size corpus) pages d) ∅ (keys corpus))
    end.
Proof.
  destruct (corpus !! page) as [pages|] eqn:Hpage.
  - by apply transition_model_ok.
  - by apply transition_model_unknown.
Qed.

(** C4, as stated, fails: a damping factor outside (0,1) is not rejected.
    With [d = 2] the 2-cycle yields the mapping [{A: -1/2, B: 3/2}]. *)
Lemma transition_model_accepts_any_damping :
  ¬ (Q2Qc 2 < 1)
  ∧ transition_model two_cycle "A" (Q2Qc 2)
    = Ok {[ "A" := Q2Qc (-1 # 2); "B" := Q2Qc (3 # 2) ]}.
Proof. split; by_evaluation. Qed.

(** C5: for a page of a corpus whose links stay inside the corpus,
    [transition_model] returns a distribution over all the pages of the corpus
    whose values sum to 1 (exactly, hence within 1e-9); when the page has
    [L > 0] links, a linked page gets [(1-d)/N + d/L] and another page
    [(1-d)/N]. *)
Theorem transition_model_distribution (corpus : gmap string (gset string))
    (page : string) (pages : gset string) (d : Qc) :
  0 < d → d < 1 →
  closed corpus → corpus !! page = Some pages →
  ∃ dist, transition_model corpus page d = Ok dist
    ∧ total dist = 1
    ∧ Qcabs (total dist - 1) ≤ tol9
    ∧ dom dist = dom corpus
    ∧ (size pages ≠ 0%nat → ∀ q, q ∈ dom corpus →
         dist !! q =
           Some ((1 - d) / of_nat (size corpus)
                 + (if decide (q ∈ pages) then d / of_nat (size pages) else 0))).
Proof.
  intros _ _ Hclosed Hpage.
  exists (assign_all (transition_prob (size corpus) pages d) ∅ (keys corpus)).
  assert (Htotal : total (assign_all (transition_prob (size corpus) pages d) ∅
                                     (keys corpus)) = 1).
  { rewrite total_assign_keys. apply (sum_transition_prob _ page); [done|].
    by eapply Hclosed. }
  split_and!.
  - by apply transition_model_ok.
  - done.
  - rewrite Htotal. by_evaluation.
  - apply dom_assign_keys.
  - intros HL q Hq. rewrite lookup_assign_keys by by apply elem_of_dom.
    unfold transition_prob. by rewrite decide_False.
Qed.

Lemma transition_model_distribution_witness :
  ∃ dist, transition_model chain "A" DAMPING = Ok dist
    ∧ total dist = 1
    ∧ Qcabs (total dist - 1) ≤ tol9
    ∧ dom dist = dom chain
    ∧ (size ({[ "B" ]} : gset string) ≠ 0%nat → ∀ q, q ∈ dom chain →
         dist !! q =
           Some ((1 - DAMPING) / of_nat (size chain)
                 + (if decide (q ∈ ({[ "B" ]} : gset string))
                    then DAMPING / of_nat (size ({[ "B" ]} : gset string))
                    else 0))).
Proof.
  apply (transition_model_distribution chain "A" {[ "B" ]} DAMPING).
  - by_evaluation.
  - by_evaluation.
  - by_evaluation.
  - reflexivity.
Defined.

(** C6: on a dangling page, [transition_model] returns the uniform
    distribution: every page of the corpus gets exactly [1/N]. *)
Theorem transition_model_dangling (corpus : gmap string (gset string))
    (page : string) (d : Qc) :
  0 < d → d < 1 →
  corpus !! page = Some ∅ →
  ∃ dist, transition_model corpus page d = Ok dist
    ∧ dom dist = dom corpus
    ∧ ∀ q, q ∈ dom corpus →
        dist !! q = Some (1 / of_nat (size corpus))
        ∧ Qcabs (value dist q - 1 / of_nat (size corpus)) ≤ tol9.
Proof.
  intros _ _ Hpage.
  exists (assign_all (transition_prob (size corpus) ∅ d) ∅ (keys corpus)).
  split_and!; [by apply transition_model_ok|apply dom_assign_keys|].
  intros q Hq.
  assert (HN : of_nat (size corpus) ≠ 0).
  { apply of_nat_ne_0. rewrite <- length_keys. by eapply keys_nonempty. }
  assert (Hq' : assign_all (transition_prob (size corpus) ∅ d) ∅ (keys corpus)
                !! q = Some (1 / of_nat (size corpus))).
  { rewrite lookup_assign_keys by by apply elem_of_dom.
    unfold transition_prob. rewrite decide_True by done.
    f_equal. by field. }
  split; [done|]. rewrite (value_Some _ _ _ Hq').
  replace (1 / of_nat (size corpus) - 1 / of_nat (size corpus)) with 0
    by (by field).
  by_evaluation.
Qed.

Lemma transition_model_dangling_witness :
  ∃ dist, transition_model chain "C" DAMPING = Ok dist
    ∧ dom dist = dom chain
    ∧ ∀ q, q ∈ dom chain →
        dist !! q = Some (1 / of_nat (size chain))
        ∧ Qcabs (value dist q - 1 / of_nat (size chain)) ≤ tol9.
Proof.
  apply (transition_model_dangling chain "C" DAMPING).
  - by_evaluation.
  - by_evaluation.
  - reflexivity.
Defined.

(** ** IterativeEstimator *)

Lemma partial_step_dangling corpus previous pages page partial_prob parent :
  corpus !! parent = Some ∅ → length pages ≠ 0%nat →
  partial_step corpus previous pages page partial_prob parent
  = Ok (partial_prob + 1 / of_nat (length pages)).
Proof.
  intros Hparent Hpages. unfold partial_step.
  rewrite (getitem_Some _ _ _ Hparent). cbn [mbind outcome_bind].
  rewrite decide_False by set_solver. rewrite decide_True by done.
  rewrite truediv_ok by by apply of_nat_ne_0. done.
Qed.

(** C1 fails on the code: for the dangling parent C of the chain A -> B -> C
    and the target page A, the first pass adds [1/N = 1/3] to the partial sum,
    whereas the rank of C divided by the number of pages is
    [PR_prev(C)/N = 1/9]. *)
Theorem partial_step_dangling_chain :
  chain !! "C" = Some ∅
  ∧ value (uniform chain) "C" = Q2Qc (1 # 3)
  ∧ partial_step chain (uniform chain) (keys chain) "A" 0 "C"
    = Ok (0 + Q2Qc (1 # 3))
  ∧ partial_step chain (uniform chain) (keys chain) "A" 0 "C"
    ≠ Ok (0 + value (uniform chain) "C" / of_nat (size chain)).
Proof. split_and!; by_evaluation. Qed.

Lemma iterate_loop_more_fuel fuel fuel' corpus d pages prob_dis r :
  iterate_loop fuel corpus d pages prob_dis = Some r → (fuel ≤ fuel')%nat →
  iterate_loop fuel' corpus d pages prob_dis = Some r.
Proof.
  revert fuel' prob_dis.
  induction fuel as [|fuel IH]; intros fuel' prob_dis Hloop Hle; [done|].
  destruct fuel' as [|fuel']; [lia|]. cbn [iterate_loop] in *.
  destruct (pass corpus d pages prob_dis) as [[prob_dis' converged]|e];
    [|done].
  destruct converged; [done|]. apply IH; [done|lia].
Qed.

Lemma iterate_pagerank_more_fuel fuel fuel' corpus d r :
  iterate_pagerank fuel corpus d = Some r → (fuel ≤ fuel')%nat →
  iterate_pagerank fuel' corpus d = Some r.
Proof.
  unfold iterate_pagerank. destruct (initial_dis (keys corpus)); [|done].
  apply iterate_loop_more_fuel.
Qed.

(** *** The single isolated page *)

Lemma keys_single : keys single = ["A"]%list.
Proof. by vm_compute. Qed.

Lemma of_nat_1 : of_nat 1 = 1.
Proof. by apply Qc_is_canon. Qed.

Lemma new_rank_single d previous : new_rank single d previous "A" = 1 - d.
Proof.
  unfold new_rank. rewrite keys_single.
  replace (size single) with 1%nat by (by vm_compute).
  replace (parents_of ["A"]%list "A") with (@nil string) by (by vm_compute).
  rewrite sum_over_nil, of_nat_1. by field.
Qed.

Lemma next_single d previous :
  next single d previous = <["A" := 1 - d]> previous.
Proof.
  unfold next, assign_all. rewrite keys_single. cbn [foldl].
  by rewrite new_rank_single.
Qed.

Lemma ranks_single d n : ranks single d (S n) = {[ "A" := 1 - d ]}.
Proof.
  induction n as [|n IH].
  - rewrite ranks_S, next_single. cbn [ranks]. unfold uniform, assign_all.
    rewrite keys_single. cbn [foldl].
    by rewrite insert_empty, insert_singleton_eq.
  - by rewrite ranks_S, IH, next_single, insert_singleton_eq.
Qed.

Lemma settled_single d : settled single d (ranks single d 1).
Proof.
  intros page _. rewrite <- ranks_S, !ranks_single.
  replace (value {["A" := 1 - d]} page - value {["A" := 1 - d]} page)
    with 0 by ring.
  by_evaluation.
Qed.

Lemma iterate_pagerank_single d fuel :
  0 < d → d < 1 → (2 ≤ fuel)%nat →
  iterate_pagerank fuel single d = Some (Ok {[ "A" := 1 - d ]}).
Proof.
  intros Hd0 Hd1 Hfuel.
  destruct (iterate_pagerank_stops single d) as (k & Hbefore & _ & Hstop & _);
    [by apply Qclt_le_weak|done|].
  assert (Hk : (k ≤ 1)%nat).
  { destruct (decide (k ≤ 1)%nat) as [|Hgt]; [done|].
    destruct (Hbefore 1%nat); [lia|apply settled_single]. }
  rewrite Hstop by lia. by rewrite ranks_single.
Qed.

Section single_sample.
Context {G : Type} `{RandomSource G}.

Lemma sample_pagerank_single d n (g : G) :
  0 < d → d < 1 → (1 ≤ n)%nat →
  ∃ g', sample_pagerank single d n g = Ok ({[ "A" := 1 ]}, g').
Proof.
  intros Hd0 Hd1 Hn.
  destruct (sample_visits_ok single d Hd0 Hd1 n g)
    as (raw & g' & Hvisits & Hlen & Hraw); [done|done|].
  assert (Hn0 : n ≠ 0%nat) by lia.
  exists g'. rewrite (sample_pagerank_ok single d n g g' raw Hn0 Hvisits).
  do 2 f_equal. unfold assign_all. rewrite keys_single. cbn [foldl].
  rewrite insert_empty. f_equal.
  assert (Hcount : count "A" raw = n).
  { rewrite <- Hlen. clear Hlen Hvisits.
    induction raw as [|page raw IH]; [done|].
    rewrite count_cons, IH by (intros; apply Hraw; by right).
    assert (page ∈ dom single) as Hpage by (apply Hraw; left).
    unfold single in Hpage. rewrite dom_singleton_L in Hpage.
    apply elem_of_singleton in Hpage as ->. by rewrite decide_True. }
  rewrite Hcount. field. apply of_nat_ne_0. lia.
Qed.
End single_sample.

(** C2 holds for the sampler and fails for the iteration: on the single
    isolated page [sample_pagerank] returns [{A: 1}] for every [n >= 1],
    while [iterate_pagerank] returns [{A: 1 - d}], which is not [{A: 1}]. *)
Theorem single_page_estimates {G : Type} `{RandomSource G} (d : Qc) (n : nat)
    (g : G) :
  0 < d → d < 1 → (1 ≤ n)%nat →
  (∃ g', sample_pagerank single d n g = Ok ({[ "A" := 1 ]}, g'))
  ∧ (∀ fuel, (2 ≤ fuel)%nat →
       iterate_pagerank fuel single d = Some (Ok {[ "A" := 1 - d ]}))
  ∧ ({[ "A" := 1 - d ]} : gmap string Qc) ≠ {[ "A" := 1 ]}.
Proof.
  intros Hd0 Hd1 Hn. split_and!.
  - by apply sample_pagerank_single.
  - intros fuel Hfuel. by apply iterate_pagerank_single.
  - intros Heq. apply (f_equal (.!! "A")) in Heq.
    rewrite !lookup_singleton_eq in Heq. apply (inj Some) in Heq.
    clear Hn. qc_lra.
Qed.

Lemma single_page_estimates_witness :
  (∃ g', sample_pagerank single DAMPING 3 0%nat = Ok ({[ "A" := 1 ]}, g'))
  ∧ (∀ fuel, (2 ≤ fuel)%nat →
       iterate_pagerank fuel single DAMPING
       = Some (Ok {[ "A" := 1 - DAMPING ]}))
  ∧ ({[ "A" := 1 - DAMPING ]} : gmap string Qc) ≠ {[ "A" := 1 ]}.
Proof.
  apply (single_page_estimates DAMPING 3 0%nat).
  - by_evaluation.
  - by_evaluation.
  - lia.
Defined.

(** C3 fails on the code: on the chain A -> B -> C the loop stops after three
    passes and returns [{A: 1/3, B: 37/60, C: 689/1200}], whose values sum to
    [1829/1200], about 1.524. *)
Theorem iterate_pagerank_chain_total :
  ∃ dist,
    (∀ fuel, (3 ≤ fuel)%nat →
       iterate_pagerank fuel chain DAMPING = Some (Ok dist))
    ∧ dist = {[ "A" := Q2Qc (1 # 3); "B" := Q2Qc (37 # 60);
                "C" := Q2Qc (689 # 1200) ]}
    ∧ total dist = Q2Qc (1829 # 1200)
    ∧ tol6 < Qcabs (total dist - 1).
Proof.
  eexists. split_and!; [|done|by_evaluation..].
  intros fuel Hfuel. apply (iterate_pagerank_more_fuel 3); [|done].
  by_evaluation.
Qed.

(** *** The symmetric 2-cycle, in binary64 and in exact arithmetic *)

Lemma binary64_iterate_loop_more_fuel fuel fuel' corpus d pages prob_dis r :
  Binary64.iterate_loop fuel corpus d pages prob_dis = Some r →
  (fuel ≤ fuel')%nat →
  Binary64.iterate_loop fuel' corpus d pages prob_dis = Some r.
Proof.
  revert fuel' prob_dis.
  induction fuel as [|fuel IH]; intros fuel' prob_dis Hloop Hle; [done|].
  destruct fuel' as [|fuel']; [lia|]. cbn [Binary64.iterate_loop] in *.
  destruct (Binary64.pass corpus d pages prob_dis)
    as [[prob_dis' converged]|e]; [|done].
  destruct converged; [done|]. apply IH; [done|lia].
Qed.

Lemma binary64_iterate_pagerank_more_fuel fuel fuel' corpus d r :
  Binary64.iterate_pagerank fuel corpus d = Some r → (fuel ≤ fuel')%nat →
  Binary64.iterate_pagerank fuel' corpus d = Some r.
Proof.
  unfold Binary64.iterate_pagerank.
  destruct (Binary64.initial_dis (keys corpus)); [|done].
  apply binary64_iterate_loop_more_fuel.
Qed.

(** The literals of the example are the floats nearest to the decimals. *)
Lemma binary64_literals :
  Binary64.DAMPING = S754_finite false 7656119366529843 (-53)
  ∧ Binary64.threshold = S754_finite false 4611686018427388 (-62)
  ∧ Binary64.literal 75 3 = S754_finite false 5404319552844595 (-56)
  ∧ Binary64.literal 925 3 = S754_finite false 8331659310635418 (-53).
Proof. split_and!; by vm_compute. Qed.

(** C8 as the specification has it fails on the code.  On the symmetric
    2-cycle with [d = 0.85], [transition_model] does not return
    [{A: 0.075, B: 0.925}]: [1 - 0.85] rounds to [0.15000000000000002], and
    its half, the value of A, is [0.07500000000000001], the float next above
    the float [0.075].  The decimal 0.075 lies between the two, nearer to
    the lower one.  The value of B is the float [0.925]. *)
Lemma two_cycle_transition_rounds :
  ∃ a b qa q,
    Binary64.transition_model two_cycle "A" Binary64.DAMPING
    = Ok {[ "A" := a; "B" := b ]}
    ∧ Binary64.transition_model two_cycle "A" Binary64.DAMPING
      ≠ Ok {[ "A" := Binary64.literal 75 3; "B" := Binary64.literal 925 3 ]}
    ∧ Binary64.eqb a (Binary64.literal 75 3) = false
    ∧ Binary64.eqb b (Binary64.literal 925 3) = true
    ∧ a = S754_finite false 5404319552844596 (-56)
    ∧ a = SFsucc Binary64.prec Binary64.emax (Binary64.literal 75 3)
    ∧ Binary64.exact a = Some qa
    ∧ Binary64.exact (Binary64.literal 75 3) = Some q
    ∧ q < Q2Qc (75 # 1000) ∧ Q2Qc (75 # 1000) < qa
    ∧ Q2Qc (75 # 1000) - q < qa - Q2Qc (75 # 1000).
Proof.
  eexists _, _, _, _. split_and!.
  - by vm_compute.
  - by vm_compute.
  - by vm_compute.
  - by vm_compute.
  - reflexivity.
  - by vm_compute.
  - reflexivity.
  - by vm_compute.
  - by_evaluation.
  - by_evaluation.
  - by_evaluation.
Qed.

(** C8, amended: on the symmetric 2-cycle with [d = 0.85],
    [transition_model] maps A to a value within 1e-9 of 0.075 and B to a
    value within 1e-9 of 0.925, and [iterate_pagerank] stops after the first
    pass with both ranks within 0.001 of 0.5.  This holds of the floats that
    the code computes ([Binary64]), where the ranks are the float [0.5], and
    of the exact rationals, where the values are [3/40], [37/40] and
    [1/2]. *)
Theorem two_cycle_example :
  (∃ a b,
     Binary64.transition_model two_cycle "A" Binary64.DAMPING
     = Ok {[ "A" := a; "B" := b ]}
     ∧ Binary64.within a (Q2Qc (75 # 1000)) tol9
     ∧ Binary64.within b (Q2Qc (925 # 1000)) tol9)
  ∧ (∃ a b,
       (∀ fuel, (1 ≤ fuel)%nat →
          Binary64.iterate_pagerank fuel two_cycle Binary64.DAMPING
          = Some (Ok {[ "A" := a; "B" := b ]}))
       ∧ Binary64.within a (Q2Qc (1 # 2)) threshold
       ∧ Binary64.within b (Q2Qc (1 # 2)) threshold)
  ∧ (∃ dist,
       transition_model two_cycle "A" DAMPING = Ok dist
       ∧ dom dist = dom two_cycle
       ∧ Qcabs (value dist "A" - Q2Qc (75 # 1000)) ≤ tol9
       ∧ Qcabs (value dist "B" - Q2Qc (925 # 1000)) ≤ tol9)
  ∧ (∃ dist,
       (∀ fuel, (1 ≤ fuel)%nat →
          iterate_pagerank fuel two_cycle DAMPING = Some (Ok dist))
       ∧ dom dist = dom two_cycle
       ∧ Qcabs (value dist "A" - Q2Qc (1 # 2)) ≤ threshold
       ∧ Qcabs (value dist "B" - Q2Qc (1 # 2)) ≤ threshold).
Proof.
  split_and!.
  - exists (S754_finite false 5404319552844596 (-56)),
           (S754_finite false 8331659310635418 (-53)).
    split_and!; [by vm_compute|eexists; split; [reflexivity|by_evaluation]..].
  - exists (S754_finite false 4503599627370496 (-53)),
           (S754_finite false 4503599627370496 (-53)).
    split_and!; [|eexists; split; [reflexivity|by_evaluation]..].
    intros fuel Hfuel.
    apply (binary64_iterate_pagerank_more_fuel 1); [|done]. by vm_compute.
  - exists {[ "A" := Q2Qc (75 # 1000); "B" := Q2Qc (925 # 1000) ]}.
    split_and!; by_evaluation.
  - exists {[ "A" := Q2Qc (1 # 2); "B" := Q2Qc (1 # 2) ]}.
    split_and!; [|by_evaluation..].
    intros fuel Hfuel. apply (iterate_pagerank_more_fuel 1); [|done].
    by_evaluation.
Qed.



(** ** SamplingEstimator *)

(** C7: for a non-empty corpus, a damping factor strictly between 0 and 1 and
    [n >= 1], the walk records [n] visits, each of them a page of the corpus;
    the value of a page is its visit count, between 0 and [n], divided by
    [n]; and the values sum to 1. *)
Theorem sample_pagerank_counts {G : Type} `{RandomSource G}
    (corpus : gmap string (gset string)) (d : Qc) (n : nat) (g : G) :
  corpus ≠ ∅ → 0 < d → d < 1 → (1 ≤ n)%nat →
  ∃ raw dist g',
    sample_visits corpus d n g = Ok (raw, g')
    ∧ sample_pagerank corpus d n g = Ok (dist, g')
    ∧ length raw = n
    ∧ (∀ page, page ∈ raw → page ∈ dom corpus)
    ∧ (∀ page, page ∈ dom corpus →
         (0 ≤ count page raw ≤ n)%nat
         ∧ dist !! page = Some (of_nat (count page raw) / of_nat n))
    ∧ total dist = 1.
Proof.
  intros Hcorpus Hd0 Hd1 Hn.
  destruct (sample_visits_ok corpus d Hd0 Hd1 n g Hcorpus Hn)
    as (raw & g' & Hvisits & Hlen & Hraw).
  assert (Hn0 : n ≠ 0%nat) by lia.
  exists raw, (assign_all (λ key, of_nat (count key raw) / of_nat n) ∅
                          (keys corpus)), g'.
  split_and!; [done|by apply sample_pagerank_ok|done|done| |].
  - intros page Hpage. split.
    + pose proof (count_le page raw). lia.
    + apply lookup_assign_keys. by apply elem_of_dom.
  - by apply total_sample.
Qed.

Lemma sample_pagerank_counts_witness :
  ∃ raw dist g',
    sample_visits chain DAMPING 5 0%nat = Ok (raw, g')
    ∧ sample_pagerank chain DAMPING 5 0%nat = Ok (dist, g')
    ∧ length raw = 5%nat
    ∧ (∀ page, page ∈ raw → page ∈ dom chain)
    ∧ (∀ page, page ∈ dom chain →
         (0 ≤ count page raw ≤ 5)%nat
         ∧ dist !! page = Some (of_nat (count page raw) / of_nat 5))
    ∧ total dist = 1.
Proof.
  apply (sample_pagerank_counts chain DAMPING 5 0%nat).
  - by_evaluation.
  - by_evaluation.
  - by_evaluation.
  - lia.
Defined.

(** ** Distributions *)

(** C10: on a non-empty corpus and a damping factor strictly between 0 and 1,
    each of the three functions returns a mapping whose keys are exactly the
    pages of the corpus. *)
Theorem distributions_cover_corpus {G : Type} `{RandomSource G}
    (corpus : gmap string (gset string)) (d : Qc) (n : nat) (g : G) :
  corpus ≠ ∅ → 0 < d → d < 1 → (1 ≤ n)%nat →
  (∀ page, page ∈ dom corpus →
     ∃ dist, transition_model corpus page d = Ok dist ∧ dom dist = dom corpus)
  ∧ (∃ dist g', sample_pagerank corpus d n g = Ok (dist, g')
       ∧ dom dist = dom corpus)
  ∧ (∃ k dist,
       (∀ fuel, (k < fuel)%nat →
          iterate_pagerank fuel corpus d = Some (Ok dist))
       ∧ dom dist = dom corpus).
Proof.
  intros Hcorpus Hd0 Hd1 Hn. split_and!.
  - intros page [pages Hpages]%elem_of_dom. eexists.
    split; [by apply transition_model_ok|apply dom_assign_keys].
  - destruct (sample_visits_ok corpus d Hd0 Hd1 n g Hcorpus Hn)
      as (raw & g' & Hvisits & _).
    assert (Hn0 : n ≠ 0%nat) by lia.
    eexists _, g'. split; [by apply sample_pagerank_ok|apply dom_assign_keys].
  - destruct (iterate_pagerank_stops corpus d)
      as (k & _ & _ & Hstop & _); [by apply Qclt_le_weak|done|].
    exists k, (ranks corpus d (S k)). split; [done|apply dom_ranks].
Qed.

Lemma distributions_cover_corpus_witness :
  (∀ page, page ∈ dom chain →
     ∃ dist, transition_model chain page DAMPING = Ok dist
       ∧ dom dist = dom chain)
  ∧ (∃ dist g', sample_pagerank chain DAMPING 5 0%nat = Ok (dist, g')
       ∧ dom dist = dom chain)
  ∧ (∃ k dist,
       (∀ fuel, (k < fuel)%nat →
          iterate_pagerank fuel chain DAMPING = Some (Ok dist))
       ∧ dom dist = dom chain).
Proof.
  apply (distributions_cover_corpus chain DAMPING 5 0%nat).
  - by_evaluation.
  - by_evaluation.
  - by_evaluation.
  - lia.
Defined.

(** * Further properties of the code *)

(** ** [transition_model] (lines 53-75) *)

Lemma Qc_div_nat_le (x : Qc) (n : nat) : 0 ≤ x → n ≠ 0%nat → x / of_nat n ≤ x.
Proof.
  intros Hx Hn. pose proof (Qc_ratio_le_1 1 n ltac:(lia)) as H1.
  rewrite of_nat_1, Qcmult_1_l in H1. unfold Qcdiv in *.
  rewrite Qcmult_1_l in H1. rewrite <- (Qcmult_1_r x) at 2.
  rewrite !(Qcmult_comm x). by apply Qcmult_le_compat_r.
Qed.

Lemma transition_prob_le_1 n pages d key :
  0 < d → d < 1 → n ≠ 0%nat → transition_prob n pages d key ≤ 1.
Proof.
  intros Hd0 Hd1 Hn. unfold transition_prob.
  assert (H1d : 0 ≤ 1 - d) by qc_lra.
  assert (Hd : 0 ≤ d) by qc_lra.
  pose proof (Qc_div_nat_le (1 - d) n H1d Hn) as Hbase.
  destruct (decide (size pages = 0%nat)) as [Hz|Hnz].
  - pose proof (Qc_div_nat_le d n Hd Hn) as Hbonus.
    set (a := (1 - d) / of_nat n) in *. set (b := d / of_nat n) in *.
    clearbody a b. qc_lra.
  - destruct (decide (key ∈ pages)).
    + pose proof (Qc_div_nat_le d (size pages) Hd Hnz) as Hbonus.
      set (a := (1 - d) / of_nat n) in *.
      set (b := d / of_nat (size pages)) in *.
      clearbody a b. qc_lra.
    + set (a := (1 - d) / of_nat n) in *. clearbody a. qc_lra.
Qed.

Lemma transition_prob_ge n pages d key :
  0 ≤ d → (1 - d) / of_nat n ≤ transition_prob n pages d key.
Proof.
  intros Hd. unfold transition_prob.
  assert (Hbonus : 0 ≤ (if decide (size pages = 0%nat) then d / of_nat n
                        else if decide (key ∈ pages)
                             then d / of_nat (size pages) else 0)).
  { assert (Hdiv : ∀ m, 0 ≤ d / of_nat m).
    { intros m. unfold Qcdiv. pose proof (Qc_inv_nat_nonneg m) as Hm.
      unfold Qcdiv in Hm. rewrite Qcmult_1_l in Hm.
      set (i := / of_nat m) in *. clearbody i. qc_nra. }
    repeat case_decide; auto. }
  set (a := (1 - d) / of_nat n) in *.
  set (b := if decide (size pages = 0%nat) then _ else _) in *.
  clearbody a b. qc_lra.
Qed.

(** X1: for a damping factor strictly between 0 and 1, every value of the
    mapping that [transition_model] returns is a probability: it is at least
    [(1-d)/N], hence positive, and at most 1.  The links need not stay inside
    the corpus. *)
Theorem transition_model_probabilities (corpus : gmap string (gset string))
    (page : string) (d : Qc) (dist : gmap string Qc) :
  0 < d → d < 1 → transition_model corpus page d = Ok dist →
  ∀ key, key ∈ dom corpus →
    ∃ p, dist !! key = Some p
      ∧ (1 - d) / of_nat (size corpus) ≤ p ∧ 0 < p ∧ p ≤ 1.
Proof.
  intros Hd0 Hd1 Hdist key Hkey.
  destruct (corpus !! page) as [pages|] eqn:Hpage.
  2:{ by rewrite transition_model_unknown in Hdist. }
  rewrite (transition_model_ok _ _ _ _ Hpage) in Hdist.
  injection Hdist as <-.
  assert (HN : size corpus ≠ 0%nat).
  { rewrite <- length_keys. by eapply keys_nonempty. }
  exists (transition_prob (size corpus) pages d key). split_and!.
  - apply lookup_assign_keys. by apply elem_of_dom.
  - apply transition_prob_ge. by apply Qclt_le_weak.
  - by apply transition_prob_pos.
  - by apply transition_prob_le_1.
Qed.

Lemma transition_model_probabilities_witness :
  transition_model chain "A" DAMPING
  = Ok {[ "A" := Q2Qc (1 # 20); "B" := Q2Qc (9 # 10); "C" := Q2Qc (1 # 20) ]}
  ∧ ∀ key, key ∈ dom chain →
      ∃ p, ({[ "A" := Q2Qc (1 # 20); "B" := Q2Qc (9 # 10);
               "C" := Q2Qc (1 # 20) ]} : gmap string Qc) !! key = Some p
        ∧ (1 - DAMPING) / of_nat (size chain) ≤ p ∧ 0 < p ∧ p ≤ 1.
Proof.
  split; [by_evaluation|].
  apply (transition_model_probabilities chain "A" DAMPING).
  - by_evaluation.
  - by_evaluation.
  - by_evaluation.
Defined.





(** X3: [transition_model] reads the corpus only through its set of pages and
    the links of the current page: two corpora with the same pages that agree
    on the links of [page] give the same result, the error included. *)
Theorem transition_model_local (corpus1 corpus2 : gmap string (gset string))
    (page : string) (d : Qc) :
  dom corpus1 = dom corpus2 → corpus1 !! page = corpus2 !! page →
  transition_model corpus1 page d = transition_model corpus2 page d.
Proof.
  intros Hdom Hpage. destruct (corpus1 !! page) as [pages|] eqn:Hpage1.
  - rewrite (transition_model_ok corpus1 page pages) by done.
    rewrite (transition_model_ok corpus2 page pages) by done.
    f_equal. apply map_eq. intros k. rewrite !lookup_assign_all.
    rewrite <- !size_dom, Hdom.
    destruct (decide (k ∈ keys corpus1)) as [Hk|Hk];
      rewrite elem_of_keys, <- elem_of_dom, Hdom, elem_of_dom, <- elem_of_keys
        in Hk.
    + by rewrite decide_True.
    + by rewrite decide_False.
  - rewrite !transition_model_unknown; done.
Qed.

Lemma transition_model_local_witness :
  transition_model chain "A" DAMPING
  = transition_model {[ "A" := {[ "B" ]}; "B" := {[ "A" ]}; "C" := {[ "A" ]} ]}
                     "A" DAMPING.
Proof.
  apply (transition_model_local chain
           {[ "A" := {[ "B" ]}; "B" := {[ "A" ]}; "C" := {[ "A" ]} ]}
           "A" DAMPING).
  - by_evaluation.
  - reflexivity.
Defined.

(** ** The estimators on the edges of their domain *)

(** X4: on the empty corpus the two estimators part ways.  [sample_pagerank]
    raises [IndexError], at the [random.choice] of line 89, whatever [n] is;
    [iterate_pagerank] makes one pass over no page and returns the empty
    dict. *)
Theorem estimators_empty_corpus {G : Type} `{RandomSource G} (d : Qc)
    (n fuel : nat) (g : G) :
  sample_pagerank ∅ d n g = Raise IndexError
  ∧ iterate_pagerank (S fuel) ∅ d = Some (Ok ∅).
Proof. split; reflexivity. Qed.

(** X5: with [n = 0] and a corpus that is not empty, [sample_pagerank] draws
    its first page and then raises [ZeroDivisionError] at the division by [n]
    of line 102. *)
Theorem sample_pagerank_zero_samples {G : Type} `{RandomSource G}
    (corpus : gmap string (gset string)) (d : Qc) (g : G) :
  corpus ≠ ∅ → sample_pagerank corpus d 0 g = Raise ZeroDivisionError.
Proof.
  intros Hcorpus. unfold sample_pagerank, sample_visits.
  destruct (choice_ok (keys corpus) g) as (cur_page & g' & -> & _).
  { by rewrite keys_nil. }
  cbn [mbind outcome_bind Nat.sub walk].
  destruct (keys corpus) as [|key ks] eqn:Hkeys; [by apply keys_nil in Hkeys|].
  cbn [foldM]. by rewrite of_nat_0, truediv_zero.
Qed.

Lemma sample_pagerank_zero_samples_witness :
  sample_pagerank chain DAMPING 0 0%nat = Raise ZeroDivisionError.
Proof.
  apply (sample_pagerank_zero_samples chain DAMPING 0%nat). by_evaluation.
Defined.

(** X6: with [n = 1], [sample_pagerank] makes one random draw, that of
    [random.choice], never calls [transition_model], and returns 1 for the
    page drawn and 0 for every other page, whatever the damping factor is. *)
Theorem sample_pagerank_one_sample {G : Type} `{RandomSource G}
    (corpus : gmap string (gset string)) (d : Qc) (g : G) :
  corpus ≠ ∅ →
  ∃ page dist,
    keys corpus !! (randbelow (length (keys corpus)) g).1 = Some page
    ∧ sample_pagerank corpus d 1 g
      = Ok (dist, (randbelow (length (keys corpus)) g).2)
    ∧ ∀ q, q ∈ dom corpus →
        dist !! q = Some (if decide (q = page) then 1 else 0).
Proof.
  intros Hcorpus.
  assert (Hlen : (0 < length (keys corpus))%nat).
  { destruct (keys corpus) eqn:E; [by apply keys_nil in E|cbn; lia]. }
  pose proof (randbelow_lt (length (keys corpus)) g Hlen) as Hlt.
  destruct (lookup_lt_is_Some_2 (keys corpus) _ Hlt) as [page Hpage].
  assert (Hvisits : sample_visits corpus d 1 g
    = Ok ([page]%list, (randbelow (length (keys corpus)) g).2)).
  { unfold sample_visits, choice. rewrite decide_False by lia.
    destruct (randbelow (length (keys corpus)) g) as [i g'] eqn:Hr.
    cbn [fst snd] in *. by rewrite (list_getitem_Some _ _ _ Hpage). }
  exists page. eexists. split_and!; [done|by apply sample_pagerank_ok|].
  intros q Hq. rewrite lookup_assign_keys by by apply elem_of_dom.
  f_equal. rewrite count_cons. unfold count. rewrite filter_nil.
  cbn [length]. rewrite Nat.add_0_r, of_nat_1.
  destruct (decide (page = q)) as [->|Hne].
  - rewrite decide_True by done. rewrite of_nat_1. by apply Qc_is_canon.
  - rewrite decide_False by done. rewrite of_nat_0. by apply Qc_is_canon.
Qed.

Lemma sample_pagerank_one_sample_witness :
  ∃ page dist,
    keys chain !! (randbelow (length (keys chain)) 0%nat).1 = Some page
    ∧ sample_pagerank chain DAMPING 1 0%nat
      = Ok (dist, (randbelow (length (keys chain)) 0%nat).2)
    ∧ ∀ q, q ∈ dom chain →
        dist !! q = Some (if decide (q = page) then 1 else 0).
Proof.
  apply (sample_pagerank_one_sample chain DAMPING 0%nat). by_evaluation.
Defined.

(** ** [iterate_pagerank] (lines 107-142) *)

Lemma iterate_loop_no_exception fuel corpus d x :
  dom x = dom corpus →
  iterate_loop fuel corpus d (keys corpus) x = None
  ∨ ∃ dist, iterate_loop fuel corpus d (keys corpus) x = Some (Ok dist)
      ∧ dom dist = dom corpus.
Proof.
  revert x. induction fuel as [|fuel IH]; intros x Hx; [by left|].
  rewrite iterate_loop_S by done.
  destruct (no_change (differences corpus d x)).
  - right. eexists. split; [done|by apply dom_next].
  - apply IH. by apply dom_next.
Qed.

(** X7: [iterate_pagerank] has no error path.  For every corpus, also one
    whose links leave the corpus, and every damping factor, also one outside
    (0,1), a run either is still looping when the budget of passes ends or
    returns a dict whose keys are the pages of the corpus: no lookup fails and
    no division is by zero. *)
Theorem iterate_pagerank_no_exception (fuel : nat)
    (corpus : gmap string (gset string)) (d : Qc) :
  iterate_pagerank fuel corpus d = None
  ∨ ∃ dist, iterate_pagerank fuel corpus d = Some (Ok dist)
      ∧ dom dist = dom corpus.
Proof.
  unfold iterate_pagerank. rewrite initial_dis_ok.
  apply iterate_loop_no_exception, dom_uniform.
Qed.

Lemma Qc_div_nat_nonneg (x : Qc) (n : nat) : 0 ≤ x → 0 ≤ x / of_nat n.
Proof.
  intros Hx. pose proof (Qc_inv_nat_nonneg n) as Hn. unfold Qcdiv in *.
  rewrite Qcmult_1_l in Hn. set (i := / of_nat n) in *. clearbody i. qc_nra.
Qed.

Lemma contribution_nonneg corpus x n page parent :
  (∀ p, 0 ≤ value x p) → 0 ≤ contribution corpus x n page parent.
Proof.
  intros Hx. unfold contribution. destruct (corpus !! parent) as [links|]; [|done].
  repeat case_decide; [by apply Qc_div_nat_nonneg|apply Qc_inv_nat_nonneg|done].
Qed.

Lemma new_rank_ge corpus d x page :
  0 ≤ d → (∀ p, 0 ≤ value x p) →
  (1 - d) / of_nat (size corpus) ≤ new_rank corpus d x page.
Proof.
  intros Hd Hx. unfold new_rank.
  assert (Hsum : 0 ≤ sum_over (contribution corpus x (size corpus) page)
                              (parents_of (keys corpus) page)).
  { apply sum_over_nonneg. intros parent _. by apply contribution_nonneg. }
  set (s := sum_over _ _) in *. set (a := (1 - d) / _). clearbody s a. qc_nra.
Qed.

Lemma ranks_nonneg corpus d n page :
  0 ≤ d → d ≤ 1 → 0 ≤ value (ranks corpus d n) page.
Proof.
  intros Hd0 Hd1. revert page. induction n as [|n IH]; intros page.
  - unfold value. cbn [ranks]. unfold uniform. rewrite lookup_assign_all.
    case_decide; cbn; [apply Qc_inv_nat_nonneg|by rewrite lookup_empty].
  - destruct (decide (page ∈ dom corpus)) as [Hpage|Hpage].
    + rewrite ranks_S, value_next by (done || apply dom_ranks).
      etrans; [|by apply new_rank_ge]. apply Qc_div_nat_nonneg. qc_lra.
    + unfold value. rewrite <- (dom_ranks corpus d (S n)) in Hpage.
      by rewrite (not_elem_of_dom_1 _ _ Hpage).
Qed.

Lemma ranks_S_ge corpus d k page :
  0 < d → d < 1 → page ∈ dom corpus →
  (1 - d) / of_nat (size corpus) ≤ value (ranks corpus d (S k)) page
  ∧ 0 < value (ranks corpus d (S k)) page.
Proof.
  intros Hd0 Hd1 Hpage.
  assert (Hge : (1 - d) / of_nat (size corpus)
                ≤ value (ranks corpus d (S k)) page).
  { rewrite ranks_S, value_next by (done || apply dom_ranks).
    apply new_rank_ge; [by apply Qclt_le_weak|].
    intros p. apply ranks_nonneg; by apply Qclt_le_weak. }
  split; [done|]. eapply Qclt_le_trans; [|exact Hge].
  apply Qc_div_nat_pos; [qc_lra|].
  rewrite <- length_keys. apply keys_nonempty with page. by apply elem_of_dom.
Qed.

(** X8: for a damping factor strictly between 0 and 1, every rank that
    [iterate_pagerank] returns is at least [(1-d)/N], hence positive. *)
Theorem iterate_pagerank_lower_bound (fuel : nat)
    (corpus : gmap string (gset string)) (d : Qc) (dist : gmap string Qc) :
  0 < d → d < 1 → iterate_pagerank fuel corpus d = Some (Ok dist) →
  ∀ page, page ∈ dom corpus →
    (1 - d) / of_nat (size corpus) ≤ value dist page ∧ 0 < value dist page.
Proof.
  intros Hd0 Hd1 Hdist page Hpage.
  destruct (iterate_pagerank_stops corpus d)
    as (k & _ & _ & Hstop & Hnone); [by apply Qclt_le_weak|done|].
  destruct (decide (fuel ≤ k)%nat) as [Hle|Hgt].
  { by rewrite Hnone in Hdist. }
  rewrite Hstop in Hdist by lia. injection Hdist as <-.
  by apply ranks_S_ge.
Qed.

Lemma iterate_pagerank_lower_bound_witness :
  iterate_pagerank 3 chain DAMPING
  = Some (Ok {[ "A" := Q2Qc (1 # 3); "B" := Q2Qc (37 # 60);
                "C" := Q2Qc (689 # 1200) ]})
  ∧ ∀ page, page ∈ dom chain →
      (1 - DAMPING) / of_nat (size chain)
      ≤ value ({[ "A" := Q2Qc (1 # 3); "B" := Q2Qc (37 # 60);
                  "C" := Q2Qc (689 # 1200) ]} : gmap string Qc) page
      ∧ 0 < value ({[ "A" := Q2Qc (1 # 3); "B" := Q2Qc (37 # 60);
                      "C" := Q2Qc (689 # 1200) ]} : gmap string Qc) page.
Proof.
  split; [by_evaluation|].
  apply (iterate_pagerank_lower_bound 3 chain DAMPING).
  - by_evaluation.
  - by_evaluation.
  - by_evaluation.
Defined.



(** The floats of a run need not sum to 1.  On the corpus [swing] the
    iteration in binary64 stops after 36 passes; the three ranks, as the
    rationals they are, sum to a number that is not 1 and is within 1e-9 of
    it, and added as floats in the order A, B, C they give
    [0.9999999999999998]. *)
Lemma binary64_iterate_pagerank_swing :
  ∃ a b c qa qb qc,
    (∀ fuel, (36 ≤ fuel)%nat →
       Binary64.iterate_pagerank fuel swing Binary64.DAMPING
       = Some (Ok {[ "A" := a; "B" := b; "C" := c ]}))
    ∧ Binary64.iterate_pagerank 35 swing Binary64.DAMPING = None
    ∧ Binary64.exact a = Some qa ∧ Binary64.exact b = Some qb
    ∧ Binary64.exact c = Some qc
    ∧ qa + qb + qc ≠ 1
    ∧ Qcabs (qa + qb + qc - 1) ≤ tol9
    ∧ Binary64.add (Binary64.add (Binary64.add (Binary64.of_Z 0) a) b) c
      = S754_finite false 9007199254740990 (-53).
Proof.
  exists (S754_finite false 8755821317627794 (-54)),
         (S754_finite false 8357857266380085 (-54)),
         (S754_finite false 7205759403792795 (-57)).
  eexists _, _, _. split_and!; [| |reflexivity..| | |].
  - intros fuel Hfuel.
    apply (binary64_iterate_pagerank_more_fuel 36); [|done]. by vm_compute.
  - by vm_compute.
  - by_evaluation.
  - by_evaluation.
  - by vm_compute.
Qed.



Lemma assign_all_ext f g m l :
  (∀ k, k ∈ l → f k = g k) → assign_all f m l = assign_all g m l.
Proof.
  intros Hfg. apply map_eq. intros k. rewrite !lookup_assign_all.
  case_decide; [by rewrite Hfg|done].
Qed.

Lemma new_rank_damping_0 corpus x page :
  new_rank corpus 0 x page = 1 / of_nat (size corpus).
Proof. unfold new_rank. unfold Qcdiv. ring. Qed.

Lemma next_damping_0 corpus : next corpus 0 (uniform corpus) = uniform corpus.
Proof.
  unfold next. rewrite assign_all_keys_base by apply dom_uniform.
  apply assign_all_ext. intros k _. apply new_rank_damping_0.
Qed.

(** X11: with the damping factor 0, [iterate_pagerank] stops after its first
    pass and returns the dict it started from, in which every page has the
    rank [1/N]. *)
Theorem iterate_pagerank_damping_0 (fuel : nat)
    (corpus : gmap string (gset string)) :
  iterate_pagerank (S fuel) corpus 0 = Some (Ok (uniform corpus))
  ∧ ∀ page, page ∈ dom corpus →
      uniform corpus !! page = Some (1 / of_nat (size corpus)).
Proof.
  split.
  - unfold iterate_pagerank. rewrite initial_dis_ok.
    rewrite <- (next_damping_0 corpus) at 2.
    apply iterate_loop_settled; [apply dom_uniform|].
    intros page Hpage. rewrite next_damping_0.
    replace (value (uniform corpus) page - value (uniform corpus) page)
      with 0 by ring.
    by_evaluation.
  - intros page Hpage. apply lookup_assign_keys. by apply elem_of_dom.
Qed.

(** A pass that swaps two rank dicts, changing some rank by more than the
    threshold each time, keeps the loop running. *)
Lemma iterate_loop_cycle corpus d x1 x2 fuel :
  dom x1 = dom corpus → dom x2 = dom corpus →
  next corpus d x1 = x2 → next corpus d x2 = x1 →
  ¬ settled corpus d x1 → ¬ settled corpus d x2 →
  iterate_loop fuel corpus d (keys corpus) x1 = None
  ∧ iterate_loop fuel corpus d (keys corpus) x2 = None.
Proof.
  intros Hx1 Hx2 H12 H21 Hs1 Hs2.
  induction fuel as [|fuel [IH1 IH2]]; [done|]. split.
  - rewrite (iterate_loop_unsettled fuel corpus d x1 Hx1 Hs1). by rewrite H12.
  - rewrite (iterate_loop_unsettled fuel corpus d x2 Hx2 Hs2). by rewrite H21.
Qed.

(** X12: with the damping factor 1 the loop of [iterate_pagerank] need not
    stop.  On the 2-cycle A <-> B with a third page C that links to A, a
    corpus without dangling pages, the ranks of A and B swap between 2/3 and
    1/3 in every pass, so that no budget of passes is enough. *)
Theorem iterate_pagerank_damping_1 :
  closed swing ∧ no_self_link swing ∧ no_dangling swing
  ∧ ∀ fuel, iterate_pagerank fuel swing 1 = None.
Proof.
  split_and!; [by_evaluation..|].
  intros fuel. unfold iterate_pagerank. rewrite initial_dis_ok.
  destruct fuel as [|fuel]; [done|].
  assert (Hs0 : ¬ settled swing 1 (uniform swing)) by by_evaluation.
  rewrite (iterate_loop_unsettled fuel swing 1 (uniform swing)
             (dom_uniform swing) Hs0).
  set (x1 := {[ "A" := Q2Qc (2 # 3); "B" := Q2Qc (1 # 3); "C" := 0 ]}
             : gmap string Qc).
  set (x2 := {[ "A" := Q2Qc (1 # 3); "B" := Q2Qc (2 # 3); "C" := 0 ]}
             : gmap string Qc).
  assert (H01 : next swing 1 (uniform swing) = x1) by by_evaluation.
  rewrite H01.
  apply (iterate_loop_cycle swing 1 x1 x2 fuel); by_evaluation.
Qed.

(** ** The order of the pages *)

Lemma partial_step_length corpus previous pages1 pages2 page partial_prob
    parent :
  length pages1 = length pages2 →
  partial_step corpus previous pages1 page partial_prob parent
  = partial_step corpus previous pages2 page partial_prob parent.
Proof. intros Hlen. unfold partial_step. by rewrite Hlen. Qed.

Lemma foldM_ext {A B : Type} (f g : B → A → outcome B) (b : B) (l : list A) :
  (∀ b x, f b x = g b x) → foldM f b l = foldM g b l.
Proof.
  intros Hfg. revert b. induction l as [|x l IH]; intros b; [done|].
  cbn [foldM]. rewrite Hfg. destruct (g b x); cbn; [apply IH|done].
Qed.

Lemma update_page_perm corpus d pages1 pages2 previous st page :
  pages1 ≡ₚ pages2 →
  update_page corpus d pages1 previous st page
  = update_page corpus d pages2 previous st page.
Proof.
  intros Hperm. unfold update_page.
  assert (Hlen : length pages1 = length pages2) by by apply Permutation_length.
  assert (Hparents : parents_of pages1 page = parents_of pages2 page).
  { unfold parents_of. f_equal. f_equal. apply set_eq. intros k.
    by rewrite !elem_of_list_to_set, Hperm. }
  rewrite Hparents, Hlen.
  by rewrite (foldM_ext _ (partial_step corpus previous pages2 page))
    by (intros; by apply partial_step_length).
Qed.

Lemma assign_all_perm f m l1 l2 :
  l1 ≡ₚ l2 → assign_all f m l1 = assign_all f m l2.
Proof.
  intros Hperm. apply map_eq. intros k. rewrite !lookup_assign_all.
  destruct (decide (k ∈ l1)) as [Hk|Hk]; rewrite Hperm in Hk.
  - by rewrite decide_True.
  - by rewrite decide_False.
Qed.

Lemma no_change_perm l1 l2 : l1 ≡ₚ l2 → no_change l1 = no_change l2.
Proof.
  intros Hperm. unfold no_change. f_equal.
  apply eq_true_iff_eq. rewrite !existsb_exists.
  split; intros (x & Hx & Hlt); exists x; (split; [|done]);
    apply list_elem_of_In; apply list_elem_of_In in Hx.
  - by rewrite <- Hperm.
  - by rewrite Hperm.
Qed.

(** X13: a pass does not depend on the order in which the loop of line 127
    visits the pages: every new rank is computed from the ranks of the pass
    before, so that visiting the pages in any other order gives the same dict
    and the same value of [converged]. *)
Theorem pass_order_independent (corpus : gmap string (gset string)) (d : Qc)
    (pages : list string) (prob_dis : gmap string Qc) :
  pages ≡ₚ keys corpus → dom prob_dis = dom corpus →
  pass corpus d pages prob_dis = pass corpus d (keys corpus) prob_dis.
Proof.
  intros Hperm Hdom. rewrite (pass_ok corpus d prob_dis Hdom). unfold pass.
  rewrite (foldM_ext _ (update_page corpus d (keys corpus) prob_dis))
    by (intros; by apply update_page_perm).
  rewrite (foldM_pure _ (λ st page,
    (<[page := new_rank corpus d prob_dis page]> st.1,
     st.2 ++ [Qcabs (value prob_dis page - new_rank corpus d prob_dis page)]))).
  2:{ intros st page Hpage. apply update_page_ok; [done|by rewrite <- Hperm]. }
  cbn [mbind outcome_bind].
  assert (Hfold : ∀ l m ds,
    foldl (λ (st : gmap string Qc * list Qc) page,
      (<[page := new_rank corpus d prob_dis page]> st.1,
       st.2 ++ [Qcabs (value prob_dis page - new_rank corpus d prob_dis page)]))
      (m, ds) l
    = (assign_all (new_rank corpus d prob_dis) m l,
       ds ++ ((λ page,
         Qcabs (value prob_dis page - new_rank corpus d prob_dis page)) <$> l))).
  { induction l as [|x l IH]; intros m ds; cbn; [by rewrite app_nil_r|].
    rewrite IH, <- app_assoc. done. }
  rewrite Hfold. cbn [fst snd app]. f_equal. f_equal.
  - by apply assign_all_perm.
  - apply no_change_perm. unfold differences. by apply fmap_Permutation.
Qed.

Lemma pass_order_independent_witness :
  pass chain DAMPING ["C"; "A"; "B"]%list (uniform chain)
  = pass chain DAMPING (keys chain) (uniform chain).
Proof.
  apply (pass_order_independent chain DAMPING ["C"; "A"; "B"]%list
           (uniform chain)).
  - apply (bool_decide_unpack _). vm_compute. exact I.
  - by_evaluation.
Defined.

(** ** What a pass does to the sum of the ranks *)



Section sum_after_pass.
Context (corpus : gmap string (gset string)) (d : Qc).
Hypothesis corpus_closed : closed corpus.
Hypothesis corpus_no_self_link : no_self_link corpus.


End sum_after_pass.



(** ** How close the result is to a fixed point *)

(** X15: the ranks that [iterate_pagerank] returns are close to a fixed point
    of the update rule.  For a damping factor from 0 to below 1, one more
    pass over the result changes the ranks by at most [d * N * 0.001] in all,
    the changes of the [N] pages added up. *)
Theorem iterate_pagerank_residual (fuel : nat)
    (corpus : gmap string (gset string)) (d : Qc) (dist dist' : gmap string Qc)
    (converged : bool) :
  0 ≤ d → d < 1 → iterate_pagerank fuel corpus d = Some (Ok dist) →
  pass corpus d (keys corpus) dist = Ok (dist', converged) →
  dist1 corpus dist dist' ≤ d * (of_nat (size corpus) * threshold).
Proof.
  intros Hd0 Hd1 Hdist Hpass.
  destruct (iterate_pagerank_stops corpus d Hd0 Hd1)
    as (k & _ & Hsettled & Hstop & Hnone).
  destruct (decide (fuel ≤ k)%nat) as [Hle|Hgt].
  { by rewrite Hnone in Hdist. }
  rewrite Hstop in Hdist by lia. injection Hdist as <-.
  pose proof (dom_ranks corpus d k) as Hdom.
  set (x := ranks corpus d k) in *. clearbody x.
  rewrite pass_ok in Hpass by by apply dom_next.
  injection Hpass as <- _.
  etrans; [apply next_contraction; [done..|by apply dom_next]|].
  rewrite !(Qcmult_comm d). apply Qcmult_le_compat_r; [|done].
  unfold dist1. rewrite <- length_keys, <- sum_over_const.
  apply sum_over_le. intros page Hpage. apply Hsettled.
  by rewrite elem_of_dom, <- elem_of_keys.
Qed.

Lemma iterate_pagerank_residual_witness :
  iterate_pagerank 3 chain DAMPING = Some (Ok (ranks chain DAMPING 3))
  ∧ dist1 chain (ranks chain DAMPING 3) (ranks chain DAMPING 4)
    ≤ DAMPING * (of_nat (size chain) * threshold).
Proof.
  split; [by_evaluation|].
  apply (iterate_pagerank_residual 3 chain DAMPING (ranks chain DAMPING 3)
           (ranks chain DAMPING 4) true).
  - by_evaluation.
  - by_evaluation.
  - by_evaluation.
  - by_evaluation.
Defined.

(** * The crawler *)

(** ** Strings *)

Lemma string_app_nil (s : string) : EmptyString +:+ s = s.
Proof. done. Qed.

Lemma string_app_cons (c : ascii) (s1 s2 : string) :
  String c s1 +:+ s2 = String c (s1 +:+ s2).
Proof. done. Qed.

Lemma string_app_assoc (s1 s2 s3 : string) :
  (s1 +:+ s2) +:+ s3 = s1 +:+ (s2 +:+ s3).
Proof.
  induction s1 as [|c s1 IH]; [done|]. by rewrite !string_app_cons, IH.
Qed.

Lemma string_length_app (s1 s2 : string) :
  String.length (s1 +:+ s2) = (String.length s1 + String.length s2)%nat.
Proof.
  induction s1 as [|c s1 IH]; [done|].
  rewrite string_app_cons. cbn [String.length]. by rewrite IH.
Qed.

Lemma strip_prefix_app (p s : string) : strip_prefix p (p +:+ s) = Some s.
Proof.
  induction p as [|a p IH]; [by destruct s|].
  rewrite string_app_cons. cbn [strip_prefix]. by rewrite Ascii.eqb_refl.
Qed.

Lemma strip_prefix_Some (p s rest : string) :
  strip_prefix p s = Some rest → s = p +:+ rest.
Proof.
  revert s. induction p as [|a p IH]; intros s; cbn.
  - destruct s; intros [= <-]; done.
  - destruct s as [|b s]; [done|].
    destruct (Ascii.eqb a b) eqn:E; [|done].
    apply Ascii.eqb_eq in E as ->. intros Hrest. by rewrite (IH _ Hrest).
Qed.

Lemma strip_prefix_length (p s rest : string) :
  strip_prefix p s = Some rest → (String.length rest ≤ String.length s)%nat.
Proof.
  intros ->%strip_prefix_Some. rewrite string_length_app. lia.
Qed.

(** [endswith] holds of the strings that are some text followed by the
    suffix. *)
Lemma endswith_spec (s suffix : string) :
  endswith s suffix = true ↔ ∃ p, s = p +:+ suffix.
Proof.
  split.
  - induction s as [|c s IH]; cbn [endswith].
    + destruct (String.eqb EmptyString suffix) eqn:E; [|done].
      apply String.eqb_eq in E as <-. by exists EmptyString.
    + destruct (String.eqb (String c s) suffix) eqn:E.
      * apply String.eqb_eq in E as <-. by exists EmptyString.
      * intros [p ->]%IH. by exists (String c p).
  - intros [p ->]. induction p as [|c p IH].
    + rewrite string_app_nil. destruct suffix; cbn [endswith];
        by rewrite String.eqb_refl.
    + rewrite string_app_cons. cbn [endswith]. rewrite IH.
      by destruct (String.eqb _ _).
Qed.

(** ** The regular expression *)

Lemma quoted_Some (s link rest : string) :
  quoted s = Some (link, rest) →
  s = link +:+ String quote rest ∧ has_char link quote = false.
Proof.
  revert link. induction s as [|c s IH]; intros link; cbn; [done|].
  destruct (Ascii.eqb c quote) eqn:E.
  - apply Ascii.eqb_eq in E as ->. by intros [= <- <-].
  - destruct (quoted s) as [[link' rest']|]; [|done]. cbn.
    intros [= <- <-]. destruct (IH link' eq_refl) as [-> Hfree].
    split; [done|]. cbn. by rewrite E.
Qed.

Lemma quoted_app (link rest : string) :
  has_char link quote = false →
  quoted (link +:+ String quote rest) = Some (link, rest).
Proof.
  induction link as [|c link IH]; cbn [has_char].
  - intros _. rewrite string_app_nil. cbn [quoted].
    by rewrite Ascii.eqb_refl.
  - intros [Hc Hlink]%orb_false_elim. rewrite string_app_cons.
    cbn [quoted]. by rewrite Hc, (IH Hlink).
Qed.

Lemma quoted_length (s link rest : string) :
  quoted s = Some (link, rest) → (String.length rest < String.length s)%nat.
Proof.
  intros [-> _]%quoted_Some. rewrite string_length_app. cbn. lia.
Qed.

Lemma href_at_length (s link rest : string) :
  href_at s = Some (link, rest) → (String.length rest < String.length s)%nat.
Proof.
  unfold href_at. destruct (strip_prefix href s) as [s'|] eqn:Hs'; [|done].
  cbn. intros Hq%quoted_length. apply strip_prefix_length in Hs'. lia.
Qed.

Lemma attr_scan_length (s link rest : string) :
  attr_scan s = Some (link, rest) → (String.length rest < String.length s)%nat.
Proof.
  induction s as [|c s IH]; cbn [attr_scan].
  - destruct (href_at EmptyString) as [r|] eqn:Hr; [|done].
    intros [= ->]. by apply href_at_length in Hr.
  - destruct (href_at (String c s)) as [r|] eqn:Hr.
    + intros [= ->]. by apply href_at_length in Hr.
    + destruct (Ascii.eqb c ">"); [done|]. intros Hs%IH. cbn. lia.
Qed.

Lemma match_at_length (s link rest : string) :
  match_at s = Some (link, rest) → (String.length rest < String.length s)%nat.
Proof.
  unfold match_at. destruct (strip_prefix "<a" s) as [s'|] eqn:Hs'; [|done].
  cbn. destruct s' as [|c s']; [done|]. destruct (is_space c); [|done].
  intros Hscan%attr_scan_length. apply strip_prefix_length in Hs'.
  cbn in Hs'. lia.
Qed.

Lemma attr_scan_free (s link rest : string) :
  attr_scan s = Some (link, rest) → has_char link quote = false.
Proof.
  assert (Hhref : ∀ s, href_at s = Some (link, rest) →
                       has_char link quote = false).
  { intros s'. unfold href_at.
    destruct (strip_prefix href s') as [s''|]; [|done]. cbn.
    by intros [_ ?]%quoted_Some. }
  induction s as [|c s IH]; cbn [attr_scan].
  - destruct (href_at EmptyString) as [r|] eqn:Hr; [|done].
    intros [= ->]. by eapply Hhref.
  - destruct (href_at (String c s)) as [r|] eqn:Hr.
    + intros [= ->]. by eapply Hhref.
    + by destruct (Ascii.eqb c ">").
Qed.

Lemma match_at_free (s link rest : string) :
  match_at s = Some (link, rest) → has_char link quote = false.
Proof.
  unfold match_at. destruct (strip_prefix "<a" s) as [s'|]; [|done].
  cbn. destruct s' as [|c s']; [done|]. destruct (is_space c); [|done].
  apply attr_scan_free.
Qed.

(** A budget of rounds above the length of the text is as good as any
    other. *)
Lemma findall_from_enough (rounds1 rounds2 : nat) (s : string) :
  (String.length s < rounds1)%nat → (String.length s < rounds2)%nat →
  findall_from rounds1 s = findall_from rounds2 s.
Proof.
  revert rounds2 s. induction rounds1 as [|rounds1 IH]; intros rounds2 s H1 H2;
    [lia|].
  destruct rounds2 as [|rounds2]; [lia|]. cbn [findall_from].
  destruct (match_at s) as [[link rest]|] eqn:Hm.
  - f_equal. apply match_at_length in Hm. apply IH; lia.
  - destruct s as [|c s]; [done|]. cbn in H1, H2. apply IH; lia.
Qed.

Lemma findall_unfold (s : string) :
  findall s
  = match match_at s with
    | Some (link, rest) => link :: findall rest
    | None =>
        match s with
        | EmptyString => []
        | String _ s' => findall s'
        end
    end.
Proof.
  unfold findall at 1. cbn [findall_from].
  destruct (match_at s) as [[link rest]|] eqn:Hm.
  - f_equal. apply match_at_length in Hm.
    apply findall_from_enough; lia.
  - destruct s as [|c s]; [done|]. apply findall_from_enough; cbn; lia.
Qed.

Lemma findall_from_free (rounds : nat) (s link : string) :
  link ∈ findall_from rounds s → has_char link quote = false.
Proof.
  revert s. induction rounds as [|rounds IH]; intros s; cbn [findall_from].
  { by intros ?%elem_of_nil. }
  destruct (match_at s) as [[link' rest]|] eqn:Hm.
  - intros [->|Hin]%elem_of_cons; [by eapply match_at_free|by eapply IH].
  - destruct s as [|c s]; [by intros ?%elem_of_nil|apply IH].
Qed.

Lemma match_at_anchor (link text : string) :
  has_char link quote = false →
  match_at (anchor link +:+ text) = Some (link, ">" +:+ text).
Proof.
  intros Hfree.
  assert (Htext : anchor link +:+ text
    = "<a" +:+ String " " (href +:+ link +:+ String quote (">" +:+ text))).
  { unfold anchor. by rewrite !string_app_assoc. }
  assert (Hhref : href_at (href +:+ link +:+ String quote (">" +:+ text))
                  = Some (link, ">" +:+ text)).
  { unfold href_at. rewrite strip_prefix_app. cbn [mbind option_bind].
    by apply quoted_app. }
  rewrite Htext. unfold match_at. rewrite strip_prefix_app.
  cbn [mbind option_bind]. replace (is_space " ") with true by done.
  destruct (href +:+ link +:+ String quote (">" +:+ text)) eqn:E;
    cbn [attr_scan]; by rewrite Hhref.
Qed.

(** X16: every link that the pattern of line 40 extracts is free of double
    quotes. *)
Theorem findall_links_unquoted (contents link : string) :
  link ∈ findall contents → has_char link quote = false.
Proof. apply findall_from_free. Qed.

Lemma findall_links_unquoted_witness :
  has_char "2.html" quote = false.
Proof.
  apply (findall_links_unquoted (page_of ["1.html"; "2.html"]%list) "2.html").
  apply (bool_decide_unpack _). vm_compute. exact I.
Defined.

Lemma findall_anchors (links : list string) :
  Forall (λ link, has_char link quote = false) links →
  findall (page_of links) = links.
Proof.
  induction 1 as [|link links Hfree _ IH]; [done|].
  cbn [page_of foldr]. fold (page_of links).
  rewrite findall_unfold, match_at_anchor by done.
  f_equal. rewrite findall_unfold.
  replace (match_at (">" +:+ page_of links)) with (@None (string * string))
    by done.
  done.
Qed.

(** X17: extraction undoes rendering.  From a page that holds one anchor for
    each link of a list, in the order of the list, the pattern of line 40
    extracts the list, provided no link holds a double quote. *)
Theorem findall_page_of (links : list string) :
  Forall (λ link, has_char link quote = false) links →
  findall (page_of links) = links.
Proof. apply findall_anchors. Qed.

Lemma findall_page_of_witness :
  findall (page_of ["1.html"; "2.html"]%list) = ["1.html"; "2.html"]%list.
Proof.
  apply (findall_page_of ["1.html"; "2.html"]%list).
  repeat constructor.
Defined.

(** ** [crawl] *)

Lemma returned_Some {A : Type} (m : io A) (a : A) :
  returned m = Some a ↔ m = Done a.
Proof. destruct m; cbn; split; congruence. Qed.

Lemma returned_None {A : Type} (m : io A) :
  returned m = None ↔ ∃ e, m = Stop e.
Proof.
  destruct m as [a|e]; cbn; split; try done.
  - by intros [? ?].
  - by exists e.
Qed.

Lemma crawl_entry_page fs directory pages filename contents :
  endswith filename ".html" = true →
  read fs (path_join fs directory filename) = Some contents →
  crawl_entry fs directory pages filename
  = Done (<[filename := list_to_set (findall contents) ∖ {[ filename ]}]> pages).
Proof.
  intros Hhtml Hread%returned_Some. unfold crawl_entry.
  by rewrite Hhtml, Hread.
Qed.

Lemma crawl_entry_other fs directory pages filename :
  endswith filename ".html" = false →
  crawl_entry fs directory pages filename = Done pages.
Proof. intros Hhtml. unfold crawl_entry. by rewrite Hhtml. Qed.

Lemma crawl_entry_unreadable fs directory pages filename e :
  endswith filename ".html" = true →
  open_read fs (path_join fs directory filename) = Stop e →
  crawl_entry fs directory pages filename = Stop e.
Proof. intros Hhtml Hread. unfold crawl_entry. by rewrite Hhtml, Hread. Qed.

(** The first loop, when every page of the directory can be read. *)
Lemma crawl_entries_ok fs directory names pages0 :
  (∀ name, name ∈ names → endswith name ".html" = true →
     is_Some (read fs (path_join fs directory name))) →
  ∃ pages, for_each (crawl_entry fs directory) pages0 names = Done pages
    ∧ ∀ name, pages !! name
        = if decide (name ∈ names ∧ endswith name ".html" = true)
          then (λ contents, list_to_set (findall contents) ∖ {[ name ]})
                 <$> read fs (path_join fs directory name)
          else pages0 !! name.
Proof.
  revert pages0. induction names as [|x names IH]; intros pages0 Hread.
  { exists pages0. split; [done|]. intros name.
    rewrite decide_False; [done|]. intros [?%elem_of_nil _]. done. }
  cbn [for_each]. destruct (endswith x ".html") eqn:Hx.
  - destruct (Hread x) as [contents Hcontents]; [left|done|].
    rewrite (crawl_entry_page _ _ _ _ _ Hx Hcontents). cbn [mbind io_bind].
    destruct (IH (<[x := list_to_set (findall contents) ∖ {[ x ]}]> pages0))
      as (pages & -> & Hpages).
    { intros name Hname. apply Hread. by right. }
    exists pages. split; [done|]. intros name. rewrite Hpages.
    destruct (decide (name ∈ names ∧ endswith name ".html" = true))
      as [[Hin Hhtml]|Hnot].
    + rewrite decide_True; [done|]. split; [by right|done].
    + destruct (decide (name = x)) as [->|Hne].
      * rewrite lookup_insert_eq, decide_True by (split; [left|done]).
        by rewrite Hcontents.
      * rewrite lookup_insert_ne by done. rewrite decide_False; [done|].
        intros [[?|?]%elem_of_cons ?]; [done|]. by apply Hnot.
  - rewrite (crawl_entry_other _ _ _ _ Hx). cbn [mbind io_bind].
    destruct (IH pages0) as (pages & -> & Hpages).
    { intros name Hname. apply Hread. by right. }
    exists pages. split; [done|]. intros name. rewrite Hpages.
    destruct (decide (name ∈ names ∧ endswith name ".html" = true))
      as [[Hin Hhtml]|Hnot].
    + rewrite decide_True; [done|]. split; [by right|done].
    + rewrite decide_False; [done|].
      intros [[->|?]%elem_of_cons Hhtml]; [congruence|]. by apply Hnot.
Qed.

(** The first loop, when some page of the directory cannot be read: the loop
    stops at the first of them, with the exception of [open] or of
    [f.read()]. *)
Lemma crawl_entries_stop fs directory before name after pages0 e :
  (∀ x, x ∈ before → endswith x ".html" = true →
     is_Some (read fs (path_join fs directory x))) →
  endswith name ".html" = true →
  open_read fs (path_join fs directory name) = Stop e →
  for_each (crawl_entry fs directory) pages0 (before ++ name :: after)
  = Stop e.
Proof.
  intros Hbefore Hhtml Hread. revert pages0.
  induction before as [|x before IH]; intros pages0.
  { cbn [app for_each].
    by rewrite (crawl_entry_unreadable _ _ _ _ _ Hhtml Hread). }
  cbn [app for_each]. destruct (endswith x ".html") eqn:Hx.
  - destruct (Hbefore x) as [contents Hcontents]; [left|done|].
    rewrite (crawl_entry_page _ _ _ _ _ Hx Hcontents). cbn [mbind io_bind].
    apply IH. intros y Hy. apply Hbefore. by right.
  - rewrite (crawl_entry_other _ _ _ _ Hx). cbn [mbind io_bind].
    apply IH. intros y Hy. apply Hbefore. by right.
Qed.

(** The first loop stops in no other way. *)
Lemma crawl_entries_Stop fs directory names pages0 e :
  for_each (crawl_entry fs directory) pages0 names = Stop e →
  ∃ before name after,
    names = before ++ name :: after
    ∧ (∀ x, x ∈ before → endswith x ".html" = true →
         is_Some (read fs (path_join fs directory x)))
    ∧ endswith name ".html" = true
    ∧ open_read fs (path_join fs directory name) = Stop e.
Proof.
  revert pages0. induction names as [|x names IH]; intros pages0; [done|].
  cbn [for_each]. destruct (endswith x ".html") eqn:Hx.
  - destruct (open_read fs (path_join fs directory x)) as [contents|e']
      eqn:Hcontents.
    + assert (Hread : read fs (path_join fs directory x) = Some contents)
        by by apply returned_Some.
      rewrite (crawl_entry_page _ _ _ _ _ Hx Hread). cbn [mbind io_bind].
      intros (before & name & after & -> & Hbefore & Hhtml & Hstop)%IH.
      exists (x :: before), name, after. split_and!; [done| |done..].
      intros y [->|Hy]%elem_of_cons Hy'; [by eexists|by apply Hbefore].
    + rewrite (crawl_entry_unreadable _ _ _ _ _ Hx Hcontents).
      intros [= <-]. exists [], x, names. split_and!; [done| |done..].
      by intros y ?%elem_of_nil.
  - rewrite (crawl_entry_other _ _ _ _ Hx). cbn [mbind io_bind].
    intros (before & name & after & -> & Hbefore & Hhtml & Hstop)%IH.
    exists (x :: before), name, after. split_and!; [done| |done..].
    intros y [->|Hy]%elem_of_cons Hy'; [congruence|by apply Hbefore].
Qed.

Lemma crawl_entries_no_self fs directory names pages0 pages :
  no_self_link pages0 →
  for_each (crawl_entry fs directory) pages0 names = Done pages →
  no_self_link pages.
Proof.
  revert pages0. induction names as [|x names IH]; intros pages0 Hself.
  { by intros [= <-]. }
  cbn [for_each]. destruct (endswith x ".html") eqn:Hx.
  - destruct (open_read fs (path_join fs directory x)) as [contents|e]
      eqn:Hcontents.
    + assert (Hread : read fs (path_join fs directory x) = Some contents)
        by by apply returned_Some.
      rewrite (crawl_entry_page _ _ _ _ _ Hx Hread). cbn [mbind io_bind].
      apply IH. apply map_Forall_insert_2; [|done].
      rewrite elem_of_difference, elem_of_singleton. tauto.
    + by rewrite (crawl_entry_unreadable _ _ _ _ _ Hx Hcontents).
  - rewrite (crawl_entry_other _ _ _ _ Hx). cbn [mbind io_bind]. by apply IH.
Qed.

Lemma crawl_filter_page pages filename links :
  pages !! filename = Some links →
  crawl_filter pages filename
  = Done (<[filename := filter (λ link, link ∈ dom pages) links]> pages).
Proof.
  intros Hlinks. unfold crawl_filter. by rewrite (getitem_Some _ _ _ Hlinks).
Qed.

(** The second loop, over pages not yet visited. *)
Lemma crawl_filter_loop (l : list string) (acc : gmap string (gset string))
    (D : gset string) :
  NoDup l → dom acc = D → (∀ name, name ∈ l → name ∈ D) →
  ∃ acc', for_each crawl_filter acc l = Done acc'
    ∧ ∀ name, acc' !! name
        = if decide (name ∈ l)
          then filter (λ link, link ∈ D) <$> acc !! name
          else acc !! name.
Proof.
  revert acc. induction l as [|x l IH]; intros acc Hnd Hdom Hl.
  { exists acc. split; [done|]. intros name.
    rewrite decide_False; [done|]. apply not_elem_of_nil. }
  apply NoDup_cons in Hnd as [Hx Hnd].
  assert (Hxacc : is_Some (acc !! x)).
  { apply elem_of_dom. rewrite Hdom. apply Hl. left. }
  destruct Hxacc as [links Hlinks].
  cbn [for_each]. rewrite (crawl_filter_page _ _ _ Hlinks).
  cbn [mbind io_bind].
  destruct (IH (<[x := filter (λ link, link ∈ dom acc) links]> acc))
    as (acc' & -> & Hacc'); [done| |by intros; apply Hl; right|].
  { rewrite dom_insert_L, Hdom. apply set_eq. intros name.
    rewrite elem_of_union, elem_of_singleton. split; [|by right].
    intros [->|?]; [apply Hl; left|done]. }
  exists acc'. split; [done|]. intros name. rewrite Hacc'.
  destruct (decide (name = x)) as [->|Hne].
  - rewrite decide_False by done. rewrite decide_True by left.
    by rewrite lookup_insert_eq, Hlinks, Hdom.
  - rewrite lookup_insert_ne by done.
    destruct (decide (name ∈ l)) as [Hin|Hnotin].
    + rewrite decide_True; [done|by right].
    + rewrite decide_False; [done|].
      intros [?|?]%elem_of_cons; done.
Qed.

(** The second loop keeps, of every set of links, the links to pages. *)
Lemma crawl_filter_ok (pages : gmap string (gset string)) :
  for_each crawl_filter pages (keys pages)
  = Done (filter (λ link, link ∈ dom pages) <$> pages).
Proof.
  destruct (crawl_filter_loop (keys pages) pages (dom pages))
    as (acc' & -> & Hacc'); [apply NoDup_keys|done| |].
  { intros name. by rewrite elem_of_keys, elem_of_dom. }
  f_equal. apply map_eq. intros name. rewrite Hacc', lookup_fmap.
  destruct (decide (name ∈ keys pages)) as [|Hnot]; [done|].
  rewrite elem_of_keys in Hnot. destruct (pages !! name); [|done].
  destruct Hnot. by eexists.
Qed.

Lemma crawl_Done fs directory corpus :
  crawl fs directory = Done corpus →
  ∃ names pages,
    listdir fs directory = Some names
    ∧ for_each (crawl_entry fs directory) ∅ names = Done pages
    ∧ corpus = filter (λ link, link ∈ dom pages) <$> pages.
Proof.
  unfold crawl, listdir.
  destruct (os_listdir fs directory) as [names|]; [|done].
  cbn [returned mbind io_bind].
  destruct (for_each (crawl_entry fs directory) ∅ names) as [pages|e]
    eqn:Hpages; [|done].
  cbn [mbind io_bind]. rewrite crawl_filter_ok. intros [= <-].
  by exists names, pages.
Qed.

(** What [crawl] returns when every page of the directory can be read. *)
Lemma crawl_ok fs directory names :
  listdir fs directory = Some names →
  (∀ name, name ∈ names → endswith name ".html" = true →
     is_Some (read fs (path_join fs directory name))) →
  ∃ pages,
    crawl fs directory = Done (filter (λ link, link ∈ dom pages) <$> pages)
    ∧ (∀ name, pages !! name
         = if decide (name ∈ names ∧ endswith name ".html" = true)
           then (λ contents, list_to_set (findall contents) ∖ {[ name ]})
                  <$> read fs (path_join fs directory name)
           else None)
    ∧ (∀ name, name ∈ dom pages
         ↔ name ∈ names ∧ endswith name ".html" = true).
Proof.
  intros Hlist Hread.
  destruct (crawl_entries_ok fs directory names ∅ Hread)
    as (pages & Hpages & Hlookup).
  exists pages. split_and!.
  - apply returned_Some in Hlist. unfold crawl. rewrite Hlist.
    cbn [mbind io_bind]. rewrite Hpages. cbn [mbind io_bind].
    apply crawl_filter_ok.
  - intros name. by rewrite Hlookup, lookup_empty.
  - intros name. rewrite elem_of_dom, Hlookup.
    destruct (decide (name ∈ names ∧ endswith name ".html" = true))
      as [[Hin Hhtml]|Hnot].
    + destruct (Hread name Hin Hhtml) as [contents ->]. cbn.
      split; [done|by eexists].
    + rewrite lookup_empty. split; [by intros [? ?]|done].
Qed.

Lemma crawl_Done_closed fs directory corpus :
  crawl fs directory = Done corpus → closed corpus.
Proof.
  intros (names & pages & _ & _ & ->)%crawl_Done.
  intros name links. rewrite lookup_fmap.
  destruct (pages !! name) as [links0|]; [|done]. cbn. intros [= <-].
  intros link [Hlink _]%elem_of_filter. by rewrite dom_fmap_L.
Qed.

Lemma crawl_Done_no_self fs directory corpus :
  crawl fs directory = Done corpus → no_self_link corpus.
Proof.
  intros (names & pages & _ & Hpages & ->)%crawl_Done.
  apply crawl_entries_no_self in Hpages; [|apply map_Forall_empty].
  intros name links. rewrite lookup_fmap.
  destruct (pages !! name) as [links0|] eqn:Hname; [|done]. cbn.
  intros [= <-] [_ Hin]%elem_of_filter. by apply (Hpages name links0).
Qed.

(** X18: when the directory can be listed and each of its entries whose name
    ends in [.html] can be read, [crawl] returns a corpus.  Its pages are
    those entries, and the links of a page are the links extracted from its
    text, less the page itself and less every link that is not a page. *)
Theorem crawl_pages (fs : filesystem) (directory : string)
    (names : list string) :
  listdir fs directory = Some names →
  (∀ name, name ∈ names → endswith name ".html" = true →
     is_Some (read fs (path_join fs directory name))) →
  ∃ corpus, crawl fs directory = Done corpus
    ∧ (∀ name, name ∈ dom corpus
         ↔ name ∈ names ∧ endswith name ".html" = true)
    ∧ (∀ name contents, name ∈ dom corpus →
         read fs (path_join fs directory name) = Some contents →
         ∃ links, corpus !! name = Some links
           ∧ ∀ link, link ∈ links
               ↔ link ∈ findall contents ∧ link ≠ name ∧ link ∈ dom corpus).
Proof.
  intros Hlist Hread.
  destruct (crawl_ok fs directory names Hlist Hread)
    as (pages & Hcrawl & Hlookup & Hdom).
  exists (filter (λ link, link ∈ dom pages) <$> pages).
  split_and!; [done| |].
  - intros name. by rewrite dom_fmap_L.
  - intros name contents Hname Hcontents. rewrite dom_fmap_L in Hname.
    rewrite lookup_fmap, Hlookup, decide_True by by apply Hdom.
    rewrite Hcontents. cbn. eexists. split; [done|].
    intros link. rewrite elem_of_filter, elem_of_difference.
    rewrite elem_of_list_to_set, elem_of_singleton, dom_fmap_L. tauto.
Qed.

Lemma crawl_pages_witness :
  ∃ corpus, crawl (folder "corpus" site) "corpus" = Done corpus
    ∧ (∀ name, name ∈ dom corpus
         ↔ name ∈ site.*1 ∧ endswith name ".html" = true)
    ∧ (∀ name contents, name ∈ dom corpus →
         read (folder "corpus" site)
              (path_join (folder "corpus" site) "corpus" name) = Some contents →
         ∃ links, corpus !! name = Some links
           ∧ ∀ link, link ∈ links
               ↔ link ∈ findall contents ∧ link ≠ name ∧ link ∈ dom corpus).
Proof.
  apply (crawl_pages (folder "corpus" site) "corpus" site.*1).
  - reflexivity.
  - apply (proj1 (Forall_forall (λ name, endswith name ".html" = true →
      is_Some (read (folder "corpus" site)
                    (path_join (folder "corpus" site) "corpus" name))) site.*1)).
    by_evaluation.
Defined.

(** X19: every corpus that [crawl] returns is a corpus of the data model:
    each of its links leads to one of its pages, and no page links to
    itself. *)
Theorem crawl_corpus (fs : filesystem) (directory : string)
    (corpus : gmap string (gset string)) :
  crawl fs directory = Done corpus → closed corpus ∧ no_self_link corpus.
Proof.
  intros Hcrawl. split.
  - by eapply crawl_Done_closed.
  - by eapply crawl_Done_no_self.
Qed.

Lemma crawl_corpus_witness :
  closed ({[ "1.html" := {[ "2.html" ]}; "2.html" := {[ "1.html" ]} ]}
          : gmap string (gset string))
  ∧ no_self_link ({[ "1.html" := {[ "2.html" ]}; "2.html" := {[ "1.html" ]} ]}
                  : gmap string (gset string)).
Proof.
  apply (crawl_corpus (folder "corpus" site) "corpus").
  by_evaluation.
Defined.

(** When [crawl] stops, and with what. *)
Lemma crawl_stops_iff (fs : filesystem) (directory : string) (e : error) :
  crawl fs directory = Stop e
  ↔ os_listdir fs directory = Stop e
    ∨ ∃ before name after,
        os_listdir fs directory = Done (before ++ name :: after)
        ∧ (∀ x, x ∈ before → endswith x ".html" = true →
             is_Some (read fs (path_join fs directory x)))
        ∧ endswith name ".html" = true
        ∧ open_read fs (path_join fs directory name) = Stop e.
Proof.
  unfold crawl. split.
  - destruct (os_listdir fs directory) as [names|e'];
      cbn [mbind io_bind]; [|intros [= ->]; by left].
    destruct (for_each (crawl_entry fs directory) ∅ names) as [pages|e']
      eqn:Hpages; cbn [mbind io_bind].
    { by rewrite crawl_filter_ok. }
    intros [= ->]. right.
    apply crawl_entries_Stop in Hpages
      as (before & name & after & -> & Hbefore & Hhtml & Hread).
    by exists before, name, after.
  - intros [->|(before & name & after & -> & Hbefore & Hhtml & Hread)];
      [done|].
    cbn [mbind io_bind].
    by rewrite (crawl_entries_stop _ _ _ _ _ _ _ Hbefore Hhtml Hread).
Qed.

(** X20: [crawl] raises no exception of its own, and it lets every exception
    of [os.listdir], of [open] and of [f.read()] through.  It stops exactly
    when [os.listdir] raises, or when [open] or [f.read()] raises on an entry
    whose name ends in [.html]: with an [OSError] when the directory cannot
    be listed or the file cannot be opened, with a [UnicodeDecodeError] when
    the file is not text.  It stops with that very exception, at the first
    such entry in the order of the listing; an entry with another name is
    never opened, and nothing stops the second loop. *)
Theorem crawl_stops (fs : filesystem) (directory : string) (e : error) :
  crawl fs directory = Stop e
  ↔ os_listdir fs directory = Stop e
    ∨ ∃ before name after,
        os_listdir fs directory = Done (before ++ name :: after)
        ∧ (∀ x, x ∈ before → endswith x ".html" = true →
             is_Some (read fs (path_join fs directory x)))
        ∧ endswith name ".html" = true
        ∧ open_read fs (path_join fs directory name) = Stop e.
Proof. apply crawl_stops_iff. Qed.

(** A page that is not text stops [crawl] with [UnicodeDecodeError], and a
    directory that is not there with [OSError]. *)
Lemma crawl_binary_file :
  crawl (with_binary_file (folder "corpus" site) "corpus/2.html") "corpus"
  = Stop UnicodeDecodeError
  ∧ crawl (folder "corpus" site) "elsewhere" = Stop OSError.
Proof. split; by vm_compute. Qed.

(** ** Rendering and crawling *)

Lemma folder_listdir directory files :
  listdir (folder directory files) directory = Some files.*1.
Proof. unfold listdir. cbn. by rewrite decide_True. Qed.

Lemma folder_read directory files name :
  read (folder directory files)
       (path_join (folder directory files) directory name)
  = (list_to_map files : gmap string string) !! name.
Proof.
  unfold read. cbn. rewrite <- string_app_assoc, strip_prefix_app. cbn.
  by destruct (_ !! name).
Qed.

(** X21: crawling undoes rendering.  Take a corpus in which every link leads
    to a page and no page links to itself, and whose page names end in
    [.html] and hold no double quote.  From the directory that holds, for
    each page, a text with an anchor for each of its links, [crawl] returns
    that corpus. *)
Theorem crawl_site_of (directory : string)
    (corpus : gmap string (gset string)) :
  closed corpus → no_self_link corpus →
  (∀ name, name ∈ dom corpus →
     endswith name ".html" = true ∧ has_char name quote = false) →
  crawl (folder directory (site_of corpus)) directory = Done corpus.
Proof.
  intros Hclosed Hself Hnames.
  set (texts := (λ links, page_of (elements links)) <$> corpus).
  set (fs := folder directory (site_of corpus)).
  assert (Hread : ∀ name, read fs (path_join fs directory name) = texts !! name).
  { intros name. unfold fs. rewrite folder_read. unfold site_of.
    by rewrite list_to_map_to_list. }
  assert (Hin : ∀ name, name ∈ (site_of corpus).*1 ↔ name ∈ dom corpus).
  { intros name. unfold site_of. fold texts. fold (keys texts).
    rewrite elem_of_keys, <- elem_of_dom. unfold texts. by rewrite dom_fmap_L. }
  destruct (crawl_ok fs directory (site_of corpus).*1)
    as (pages & -> & Hlookup & Hdom).
  { apply folder_listdir. }
  { intros name Hname%Hin _. rewrite Hread. unfold texts. rewrite lookup_fmap.
    apply elem_of_dom in Hname as [links ->]. by eexists. }
  f_equal. apply map_eq. intros name. rewrite lookup_fmap, Hlookup.
  destruct (corpus !! name) as [links|] eqn:Hlinks.
  - assert (Hname : name ∈ dom corpus) by (apply elem_of_dom; by eexists).
    rewrite decide_True by (split; [by apply Hin|by apply Hnames]).
    rewrite Hread. unfold texts. rewrite lookup_fmap, Hlinks.
    cbn [fmap option_fmap option_map]. f_equal.
    rewrite findall_anchors.
    2:{ apply Forall_forall. intros link Hlink%elem_of_elements.
        apply Hnames. by apply (Hclosed name links). }
    apply set_eq. intros link.
    rewrite elem_of_filter, elem_of_difference, elem_of_list_to_set.
    rewrite elem_of_elements, elem_of_singleton.
    split; [tauto|]. intros Hlink. split_and!; [|done|].
    + apply Hdom. assert (link ∈ dom corpus) by by apply (Hclosed name links).
      split; [by apply Hin|by apply Hnames].
    + intros ->. by apply (Hself name links).
  - rewrite decide_False; [done|]. intros [Hname%Hin _].
    apply elem_of_dom in Hname as [? ?]. congruence.
Qed.

Lemma crawl_site_of_witness :
  crawl (folder "corpus"
           (site_of {[ "1.html" := {[ "2.html" ]}; "2.html" := {[ "1.html" ]};
                       "3.html" := ∅ ]}))
        "corpus"
  = Done {[ "1.html" := {[ "2.html" ]}; "2.html" := {[ "1.html" ]};
            "3.html" := ∅ ]}.
Proof.
  apply (crawl_site_of "corpus"
           {[ "1.html" := {[ "2.html" ]}; "2.html" := {[ "1.html" ]};
              "3.html" := ∅ ]}).
  - by_evaluation.
  - by_evaluation.
  - change (set_Forall (λ name, endswith name ".html" = true
                                ∧ has_char name quote = false)
              (dom ({[ "1.html" := {[ "2.html" ]}; "2.html" := {[ "1.html" ]};
                       "3.html" := ∅ ]} : gmap string (gset string)))).
    by_evaluation.
Defined.



(** * The program *)

Lemma DAMPING_pos : 0 < DAMPING.
Proof. by_evaluation. Qed.

Lemma DAMPING_lt_1 : DAMPING < 1.
Proof. by_evaluation. Qed.

Lemma sampling_header_text :
  sampling_header = "PageRank Results from Sampling (n = 10000)".
Proof. by vm_compute. Qed.

Lemma SAMPLES_pos : (1 ≤ SAMPLES)%nat.
Proof. unfold SAMPLES. lia. Qed.

Lemma sorted_perm (ranks : gmap string Qc) : sorted ranks ≡ₚ keys ranks.
Proof. apply merge_sort_Permutation. Qed.

Lemma sorted_dom (ranks1 ranks2 : gmap string Qc) :
  dom ranks1 = dom ranks2 → sorted ranks1 = sorted ranks2.
Proof.
  intros Hdom. unfold sorted.
  assert (Hperm : keys ranks1 ≡ₚ keys ranks2) by by apply keys_perm.
  apply (Sorted_unique_strong String.le).
  - intros x y _ _. apply (anti_symm String.le).
  - apply Sorted_merge_sort, _.
  - apply Sorted_merge_sort, _.
  - by rewrite !merge_sort_Permutation.
Qed.

Lemma print_ranks_ok format ranks pages out :
  (∀ page, page ∈ pages → is_Some (ranks !! page)) →
  print_ranks format ranks pages out
  = (out ++ ((λ page, rank_line format page (value ranks page)) <$> pages),
     Done ()).
Proof.
  revert out. induction pages as [|page pages IH]; intros out Hpages.
  { cbn. by rewrite app_nil_r. }
  cbn [print_ranks]. rewrite getitem_value by (apply Hpages; left).
  rewrite IH by (intros; apply Hpages; by right).
  by rewrite <- app_assoc.
Qed.

Lemma print_ranks_sorted format ranks out :
  print_ranks format ranks (sorted ranks) out
  = (out ++ ((λ page, rank_line format page (value ranks page))
               <$> sorted ranks),
     Done ()).
Proof.
  apply print_ranks_ok. intros page Hpage.
  by rewrite sorted_perm, elem_of_keys in Hpage.
Qed.

Section main.
Context {G : Type} `{RandomSource G}.
Context (format : Qc → string).

(** A run whose command line names a directory. *)
Lemma main_crawl fuel prog directory fs (g : G) :
  main format fuel [prog; directory] fs g
  = match crawl fs directory with
    | Stop e => Some ([], Stop e)
    | Done corpus =>
        match sample_pagerank corpus DAMPING SAMPLES g with
        | Raise e => Some ([], Stop (Exception e))
        | Ok (sample, _) =>
            match iterate_pagerank fuel corpus DAMPING with
            | None => None
            | Some (Raise e) =>
                Some ([sampling_header]
                        ++ ((λ page, rank_line format page (value sample page))
                              <$> sorted sample),
                      Stop (Exception e))
            | Some (Ok ranks) =>
                Some (([sampling_header]
                         ++ ((λ page, rank_line format page (value sample page))
                               <$> sorted sample))
                        ++ [iteration_header]
                        ++ ((λ page, rank_line format page (value ranks page))
                              <$> sorted ranks),
                      Done ())
            end
        end
    end.
Proof.
  unfold main. rewrite decide_False by (cbn; lia).
  cbn [list_getitem lookup list_lookup lift mbind io_bind].
  destruct (crawl fs directory) as [corpus|e]; cbn [mbind io_bind]; [|done].
  destruct (sample_pagerank corpus DAMPING SAMPLES g) as [[sample g']|e];
    cbn [lift mbind io_bind]; [|done].
  rewrite print_ranks_sorted.
  destruct (iterate_pagerank fuel corpus DAMPING) as [[ranks|e]|]; [|done..].
  by rewrite print_ranks_sorted, <- app_assoc.
Qed.

(** The sampling of [main] succeeds on every corpus that is not empty. *)
Lemma main_sample corpus (g : G) :
  corpus ≠ ∅ →
  ∃ sample g', sample_pagerank corpus DAMPING SAMPLES g = Ok (sample, g')
    ∧ dom sample = dom corpus.
Proof.
  intros Hcorpus.
  destruct (sample_visits_ok corpus DAMPING DAMPING_pos DAMPING_lt_1 SAMPLES g
              Hcorpus SAMPLES_pos) as (raw & g' & Hvisits & _).
  assert (Hn0 : SAMPLES ≠ 0%nat) by (pose proof SAMPLES_pos; lia).
  eexists _, g'. split; [by apply sample_pagerank_ok|apply dom_assign_keys].
Qed.
End main.

Lemma sample_pagerank_no_page {G : Type} `{RandomSource G} d n (g : G) :
  sample_pagerank ∅ d n g = Raise IndexError.
Proof. reflexivity. Qed.

Lemma iterate_pagerank_Raise fuel corpus d e :
  iterate_pagerank fuel corpus d ≠ Some (Raise e).
Proof.
  unfold iterate_pagerank. rewrite initial_dis_ok.
  destruct (iterate_loop_no_exception fuel corpus d (uniform corpus)
              (dom_uniform corpus)) as [->|(dist & -> & _)]; done.
Qed.

(** X23: [main] ends without completing in three places only, and each time
    before it has printed a line ([print] is taken to succeed): at the check
    of the command line, with [sys.exit] and the usage message, when the
    command line does not hold one argument exactly; inside [crawl], with the
    exception that [os.listdir], [open] or [f.read()] raised there, an
    [OSError] or, for a page that is not text, a [UnicodeDecodeError], which
    neither [crawl] nor [main] catches; and at the first line of
    [sample_pagerank], with [IndexError], when [crawl] returned the empty
    corpus. *)
Theorem main_stops {G : Type} `{RandomSource G} (format : Qc → string)
    (fuel : nat) (argv : list string) (fs : filesystem) (g : G)
    (out : list string) (e : error) :
  main format fuel argv fs g = Some (out, Stop e) →
  out = []
  ∧ (length argv ≠ 2%nat ∧ e = SystemExit usage
     ∨ ∃ prog directory, argv = [prog; directory]%list
         ∧ (crawl fs directory = Stop e
            ∧ (os_listdir fs directory = Stop e
               ∨ ∃ name, endswith name ".html" = true
                   ∧ open_read fs (path_join fs directory name) = Stop e)
            ∨ crawl fs directory = Done ∅ ∧ e = Exception IndexError)).
Proof.
  intros Hmain. destruct (decide (length argv ≠ 2%nat)) as [Hlen|Hlen].
  { unfold main in Hmain. rewrite decide_True in Hmain by done.
    injection Hmain as <- <-. split; [done|by left]. }
  destruct argv as [|prog [|directory [|? ?]]]; cbn in Hlen; try lia.
  rewrite main_crawl in Hmain.
  destruct (crawl fs directory) as [corpus|e'] eqn:Hcrawl.
  2:{ injection Hmain as <- <-. split; [done|]. right. exists prog, directory.
      split; [done|]. left. split; [done|].
      apply crawl_stops_iff in Hcrawl
        as [Hlist|(before & name & after & _ & _ & Hhtml & Hread)];
        [by left|right]. by exists name. }
  destruct (decide (corpus = ∅)) as [->|Hcorpus].
  { rewrite sample_pagerank_no_page in Hmain. injection Hmain as <- <-.
    split; [done|]. right. exists prog, directory. split; [done|by right]. }
  destruct (main_sample corpus g Hcorpus) as (sample & g' & Hsample & _).
  rewrite Hsample in Hmain.
  destruct (iterate_pagerank fuel corpus DAMPING) as [[ranks|e']|] eqn:Hit;
    [done| |done].
  by apply iterate_pagerank_Raise in Hit.
Qed.

Lemma main_stops_witness :
  ([] : list string) = []
  ∧ (length ["pagerank.py"; "corpus"]%list ≠ 2%nat
     ∧ UnicodeDecodeError = SystemExit usage
     ∨ ∃ prog directory, ["pagerank.py"; "corpus"]%list = [prog; directory]%list
         ∧ (crawl (with_binary_file (folder "corpus" site) "corpus/2.html")
                  directory = Stop UnicodeDecodeError
            ∧ (os_listdir (with_binary_file (folder "corpus" site)
                             "corpus/2.html") directory
               = Stop UnicodeDecodeError
               ∨ ∃ name, endswith name ".html" = true
                   ∧ open_read (with_binary_file (folder "corpus" site)
                                  "corpus/2.html")
                       (path_join (with_binary_file (folder "corpus" site)
                                     "corpus/2.html") directory name)
                     = Stop UnicodeDecodeError)
            ∨ crawl (with_binary_file (folder "corpus" site) "corpus/2.html")
                    directory = Done ∅
              ∧ UnicodeDecodeError = Exception IndexError)).
Proof.
  apply (main_stops as_fraction 0 ["pagerank.py"; "corpus"]%list
           (with_binary_file (folder "corpus" site) "corpus/2.html") 0%nat).
  by vm_compute.
Defined.

(** X24: on a directory that can be listed and holds no entry whose name ends
    in [.html], [main] prints nothing and ends with the [IndexError] that
    [sample_pagerank] raises on the empty corpus. *)
Theorem main_no_page {G : Type} `{RandomSource G} (format : Qc → string)
    (fuel : nat) (prog directory : string) (fs : filesystem) (g : G)
    (names : list string) :
  listdir fs directory = Some names →
  (∀ name, name ∈ names → endswith name ".html" = false) →
  main format fuel [prog; directory] fs g
  = Some ([], Stop (Exception IndexError)).
Proof.
  intros Hlist Hnames.
  destruct (crawl_ok fs directory names Hlist) as (pages & Hcrawl & _ & Hdom).
  { intros name Hname Hhtml. rewrite (Hnames name Hname) in Hhtml. done. }
  assert (Hempty : pages = ∅).
  { apply map_empty. intros name. apply not_elem_of_dom. rewrite Hdom.
    intros [Hname Hhtml]. rewrite (Hnames name Hname) in Hhtml. done. }
  rewrite Hempty, fmap_empty in Hcrawl.
  by rewrite main_crawl, Hcrawl, sample_pagerank_no_page.
Qed.

Lemma main_no_page_witness :
  main as_fraction 5 ["pagerank.py"; "corpus"]
       (folder "corpus" [("notes.txt", "hello")]%list) 0%nat
  = Some ([], Stop (Exception IndexError)).
Proof.
  apply (main_no_page as_fraction 5 "pagerank.py" "corpus"
           (folder "corpus" [("notes.txt", "hello")]%list) 0%nat
           ["notes.txt"]%list).
  - reflexivity.
  - apply (proj1 (Forall_forall (λ name, endswith name ".html" = false)
                    ["notes.txt"]%list)).
    by_evaluation.
Defined.

(** X25: on a directory that can be listed and holds an entry whose name
    ends in [.html], all such entries being readable, [main] ends and prints
    [2 N + 2] lines for the [N] pages: the header of the sampling and a line
    for each page with its sampled rank, then the header of the iteration and
    a line for each page with its iterated rank, the pages in increasing
    order of their names both times. *)
Theorem main_prints {G : Type} `{RandomSource G} (format : Qc → string)
    (prog directory : string) (fs : filesystem) (g : G)
    (names : list string) :
  listdir fs directory = Some names →
  (∀ name, name ∈ names → endswith name ".html" = true →
     is_Some (read fs (path_join fs directory name))) →
  (∃ name, name ∈ names ∧ endswith name ".html" = true) →
  ∃ corpus sample g' k ranks pages,
    crawl fs directory = Done corpus
    ∧ sample_pagerank corpus DAMPING SAMPLES g = Ok (sample, g')
    ∧ (∀ fuel, (k < fuel)%nat →
         iterate_pagerank fuel corpus DAMPING = Some (Ok ranks))
    ∧ pages ≡ₚ keys corpus ∧ Sorted String.le pages
    ∧ (∀ fuel, (k < fuel)%nat →
         main format fuel [prog; directory] fs g
         = Some (sampling_header
                   :: ((λ page, rank_line format page (value sample page))
                         <$> pages)
                   ++ iteration_header
                   :: ((λ page, rank_line format page (value ranks page))
                         <$> pages),
                 Done ()))
    ∧ (∀ fuel, (fuel ≤ k)%nat →
         main format fuel [prog; directory] fs g = None).
Proof.
  intros Hlist Hread (name & Hname & Hhtml).
  destruct (crawl_ok fs directory names Hlist Hread)
    as (pages0 & Hcrawl & _ & Hdom).
  set (corpus := filter (λ link, link ∈ dom pages0) <$> pages0) in *.
  assert (Hcorpus : corpus ≠ ∅).
  { intros Hempty. assert (Hin : name ∈ dom corpus).
    { unfold corpus. rewrite dom_fmap_L. by apply Hdom. }
    rewrite Hempty, dom_empty_L in Hin. by apply not_elem_of_empty in Hin. }
  destruct (main_sample corpus g Hcorpus) as (sample & g' & Hsample & Hds).
  destruct (iterate_pagerank_stops corpus DAMPING)
    as (k & _ & _ & Hstop & Hnone);
    [apply Qclt_le_weak, DAMPING_pos|apply DAMPING_lt_1|].
  exists corpus, sample, g', k, (ranks corpus DAMPING (S k)), (sorted sample).
  split_and!; [done..| | | |].
  - rewrite sorted_perm. by apply keys_perm.
  - apply Sorted_merge_sort, _.
  - intros fuel Hfuel. rewrite main_crawl, Hcrawl, Hsample, Hstop by done.
    rewrite (sorted_dom (ranks corpus DAMPING (S k)) sample)
      by (by rewrite dom_ranks, Hds).
    done.
  - intros fuel Hfuel. by rewrite main_crawl, Hcrawl, Hsample, Hnone.
Qed.

Lemma main_prints_witness :
  ∃ corpus sample g' k ranks pages,
    crawl (folder "corpus" site) "corpus" = Done corpus
    ∧ sample_pagerank corpus DAMPING SAMPLES 0%nat = Ok (sample, g')
    ∧ (∀ fuel, (k < fuel)%nat →
         iterate_pagerank fuel corpus DAMPING = Some (Ok ranks))
    ∧ pages ≡ₚ keys corpus ∧ Sorted String.le pages
    ∧ (∀ fuel, (k < fuel)%nat →
         main as_fraction fuel ["pagerank.py"; "corpus"]
              (folder "corpus" site) 0%nat
         = Some (sampling_header
                   :: ((λ page, rank_line as_fraction page (value sample page))
                         <$> pages)
                   ++ iteration_header
                   :: ((λ page, rank_line as_fraction page (value ranks page))
                         <$> pages),
                 Done ()))
    ∧ (∀ fuel, (fuel ≤ k)%nat →
         main as_fraction fuel ["pagerank.py"; "corpus"]
              (folder "corpus" site) 0%nat = None).
Proof.
  apply (main_prints as_fraction "pagerank.py" "corpus" (folder "corpus" site)
           0%nat site.*1).
  - reflexivity.
  - apply (proj1 (Forall_forall (λ name, endswith name ".html" = true →
      is_Some (read (folder "corpus" site)
                    (path_join (folder "corpus" site) "corpus" name))) site.*1)).
    by_evaluation.
  - exists "1.html". split; by_evaluation.
Defined.
